(** * gpx_analyzer: elevation profile of a GPS track, coloured by slope

    A shallow embedding of [gpx_analyzer.py] and the properties of its
    numeric pipeline: cumulative great-circle distance, piecewise-linear
    elevation interpolation, fixed-length slope segments, slope classes and
    the projection of waypoints onto the track.

    Each source function is translated once, over an interface for
    Python's [float] ([PyNum]) and, for [haversine], one for the functions
    of the [math] module it calls ([PyMath]).  The interfaces are
    instantiated by
    - real numbers [R], the exact arithmetic, where rounding is set aside
      and [math.sin], [math.cos], [math.sqrt] and [math.atan2] are the
      functions of analysis;
    - exact rationals [Q], on which the functions that only add, multiply,
      divide and compare evaluate, to run them on concrete series;
    - IEEE 754 binary64 ([PrimFloat]), the arithmetic of CPython, for the
      slope classifier and the order of the distances, where NaN and
      rounding matter.
    What holds in every arithmetic is stated over the interface; what
    holds in exact arithmetic only is stated over [R].  Exceptions are
    values ([result]), and printing and plotting are events ([io]). *)

From Stdlib Require Import Floats.
From Stdlib Require Import String ZArith QArith Qround Reals Psatz Lia Bool List.
Import ListNotations.

(** ** Exceptions *)

(** The built-in exceptions the analysed functions can raise. *)
Inductive exn : Type :=
| IndexError
| ZeroDivisionError
| ValueError.

(** A computation either returns a value or raises. *)
Inductive result (A : Type) : Type :=
| Ok (a : A)
| Raise (e : exn).

Arguments Ok {A} a.
Arguments Raise {A} e.

Definition bind {A B : Type} (c : result A) (k : A -> result B) : result B :=
  match c with
  | Ok a => k a
  | Raise e => Raise e
  end.

Notation "x <- c ;; k" := (bind c (fun x => k))
  (at level 61, c at next level, right associativity).

(** ** Lists the way Python indexes them *)

(** [l[i]] for a non-negative index. *)
Definition py_index {A : Type} (l : list A) (i : nat) : result A :=
  match nth_error l i with
  | Some a => Ok a
  | None => Raise IndexError
  end.

(** [l[-1]]. *)
Definition py_last {A : Type} (l : list A) : result A :=
  match l with
  | [] => Raise IndexError
  | a :: l' => Ok (last l' a)
  end.

(** [len(range(start, stop, step))] for a non-zero step. *)
Definition range_len (start stop step : Z) : Z :=
  if (0 <? step)%Z then
    if (start <? stop)%Z then ((stop - start - 1) / step + 1)%Z else 0%Z
  else
    if (stop <? start)%Z then ((start - stop - 1) / (- step) + 1)%Z else 0%Z.

(** [list(range(start, stop, step))]; a zero step is a [ValueError]. *)
Definition py_range (start stop step : Z) : result (list Z) :=
  if (step =? 0)%Z then Raise ValueError
  else Ok (map (fun i => (start + Z.of_nat i * step)%Z)
               (seq 0 (Z.to_nat (range_len start stop step)))).

(** ** The numbers *)

(** What the code asks of a [float]: literals, the field operations and the
    comparisons.  [quot] is the quotient by a divisor that is not zero;
    division itself ([truediv] below) checks the divisor first. *)
Class PyNum (A : Type) : Type := {
  of_int : Z -> A;
  add : A -> A -> A;
  sub : A -> A -> A;
  mul : A -> A -> A;
  quot : A -> A -> A;
  ltb : A -> A -> bool;
  leb : A -> A -> bool;
  eqb : A -> A -> bool
}.

(** [math.floor] and the truncation of [int()], for the exact embeddings. *)
Class PyRound (A : Type) : Type := {
  floor : A -> Z;
  trunc : A -> Z
}.

(** Exact rationals. *)
#[export] Instance Q_num : PyNum Q := {
  of_int := inject_Z;
  add := Qplus;
  sub := Qminus;
  mul := Qmult;
  quot := Qdiv;
  ltb := fun x y => negb (Qle_bool y x);
  leb := Qle_bool;
  eqb := Qeq_bool
}.

#[export] Instance Q_round : PyRound Q := {
  floor := Qfloor;
  trunc := fun x => Z.quot (Qnum x) (Zpos (Qden x))
}.

(** Real numbers. *)
#[export] Instance R_num : PyNum R := {
  of_int := IZR;
  add := Rplus;
  sub := Rminus;
  mul := Rmult;
  quot := Rdiv;
  ltb := fun x y => if Rlt_dec x y then true else false;
  leb := fun x y => if Rle_dec x y then true else false;
  eqb := fun x y => if Req_dec_T x y then true else false
}.

#[export] Instance R_round : PyRound R := {
  floor := Int_part;
  trunc := fun x => if Rle_dec 0 x then Int_part x else (- Int_part (- x))%Z
}.

(** IEEE 754 binary64, the [float] of CPython; [float_of_Z] is exact on
    the integer literals of the code. *)
Definition float_of_Z (z : Z) : float :=
  match z with
  | Z0 => PrimFloat.zero
  | Zpos _ => PrimFloat.of_uint63 (Uint63.of_Z z)
  | Zneg p => PrimFloat.opp (PrimFloat.of_uint63 (Uint63.of_Z (Zpos p)))
  end.

#[export] Instance binary64_num : PyNum float := {
  of_int := float_of_Z;
  add := PrimFloat.add;
  sub := PrimFloat.sub;
  mul := PrimFloat.mul;
  quot := PrimFloat.div;
  ltb := PrimFloat.ltb;
  leb := PrimFloat.leb;
  eqb := PrimFloat.eqb
}.

(** The colour names [slope_to_color] returns. *)
Inductive color : Type :=
| blue
| darkgreen
| limegreen
| yellow
| orange
| red.

Section Pipeline.

Context {A : Type} {num : PyNum A} {round : PyRound A}.

(** [x / y]: a zero divisor is a [ZeroDivisionError]. *)
Definition truediv (x y : A) : result A :=
  if eqb y (of_int 0) then Raise ZeroDivisionError else Ok (quot x y).

(** ** Slope classifier *)

Definition slope_to_color (slope : A) : color :=
  let pct := mul slope (of_int 100) in
  if ltb pct (of_int 0) then blue
  else if ltb pct (of_int 3) then darkgreen
  else if ltb pct (of_int 6) then limegreen
  else if ltb pct (of_int 10) then yellow
  else if ltb pct (of_int 15) then orange
  else red.

(** ** Elevation interpolator *)

(** The [for i in range(1, len(dists))] loop, at index [i] with [n]
    iterations left; when the loop runs out the function returns
    [eles[-1]]. *)
Fixpoint interpolate_loop (distance : A) (dists eles : list A) (i n : nat)
  : result A :=
  match n with
  | O => py_last eles
  | S n' =>
      di <- py_index dists i ;;
      if leb distance di then
        d0 <- py_index dists (i - 1) ;;
        d1 <- py_index dists i ;;
        e0 <- py_index eles (i - 1) ;;
        e1 <- py_index eles i ;;
        if eqb d1 d0 then Ok e1
        else
          ratio <- truediv (sub distance d0) (sub d1 d0) ;;
          Ok (add e0 (mul ratio (sub e1 e0)))
      else interpolate_loop distance dists eles (S i) n'
  end.

Definition interpolate_elevation (distance : A) (dists eles : list A)
  : result A :=
  interpolate_loop distance dists eles 1 (length dists - 1).

(** ** Slope segmenter *)

(** [x // y] on floats: the floor of the quotient, as a float. *)
Definition floordiv (x y : A) : result A :=
  if eqb y (of_int 0) then Raise ZeroDivisionError
  else Ok (of_int (floor (quot x y))).

(** [int(x)], of a finite number.  On an infinite float or a NaN, CPython's
    [int()] raises instead ([OverflowError], [ValueError]); the exact
    embeddings have no such value. *)
Definition py_int (x : A) : Z := trunc x.

(** A segment is the tuple [(start_d, end_d, slope)]. *)
Definition slope_segment : Type := (A * A * A)%type.

Definition seg_start (s : slope_segment) : A := fst (fst s).
Definition seg_end (s : slope_segment) : A := snd (fst s).
Definition seg_slope (s : slope_segment) : A := snd s.

(** Line 100: [(end_e - start_e) / seg_dist if seg_dist != 0 else 0]. *)
Definition segment_slope (start_e end_e seg_dist : A) : result A :=
  if negb (eqb seg_dist (of_int 0)) then truediv (sub end_e start_e) seg_dist
  else Ok (of_int 0).

(** The [for i in range(len(boundaries)-1)] loop, at index [i] with [n]
    iterations left. *)
Fixpoint segment_loop (dists eles boundaries : list A) (i n : nat)
  : result (list slope_segment) :=
  match n with
  | O => Ok []
  | S n' =>
      start_d <- py_index boundaries i ;;
      end_d <- py_index boundaries (i + 1) ;;
      start_e <- interpolate_elevation start_d dists eles ;;
      end_e <- interpolate_elevation end_d dists eles ;;
      let seg_dist := sub end_d start_d in
      slope <- segment_slope start_e end_e seg_dist ;;
      segments <- segment_loop dists eles boundaries (S i) n' ;;
      Ok ((start_d, end_d, slope) :: segments)
  end.

Definition segment_slopes (dists eles : list A) (segment : A)
  : result (list slope_segment) :=
  total <- py_last dists ;;
  q <- floordiv total segment ;;
  r <- py_range 0 (py_int q * py_int segment + py_int segment + 1)
                (py_int segment) ;;
  let boundaries := map of_int r in
  b <- py_last boundaries ;;
  let boundaries :=
    if ltb b total then boundaries ++ [total] else boundaries in
  segment_loop dists eles boundaries 0 (length boundaries - 1).

End Pipeline.

(** The default of the [segment] parameter, [100.0]. *)
Definition default_segment {A : Type} {num : PyNum A} : A := of_int 100.

(** The boundary at index [j] in [range(0, stop, 100)], as a real. *)
Definition boundary (j : nat) : R := IZR (0 + Z.of_nat j * 100).

(** ** Geodesy *)

(** The functions of Python's [math] module that [haversine] calls, and
    the power [x ** 2]: they are the C library's, not the program's.
    [math.sin], [math.cos] and [math.sqrt] raise [ValueError] outside
    their domain; [math.radians] and [math.atan2] raise nothing. *)
Class PyMath (A : Type) : Type := {
  math_radians : A -> A;
  math_sin : A -> result A;
  math_cos : A -> result A;
  math_sqrt : A -> result A;
  math_atan2 : A -> A -> A;
  pow2 : A -> A
}.

(** The same functions over the reals. *)

(** [math.radians]. *)
Definition radians (x : R) : R := (x * PI / 180)%R.

(** [math.sqrt]: a negative argument is a [ValueError]. *)
Definition py_sqrt (x : R) : result R :=
  if Rlt_dec x 0 then Raise ValueError else Ok (sqrt x).

(** [math.atan2]: the angle of the point [(x, y)], in (-pi, pi]. *)
Definition atan2 (y x : R) : R :=
  if Rlt_dec 0 x then atan (y / x)
  else if Rlt_dec x 0 then
    (if Rle_dec 0 y then atan (y / x) + PI else atan (y / x) - PI)%R
  else if Rlt_dec 0 y then (PI / 2)%R
  else if Rlt_dec y 0 then (- PI / 2)%R
  else 0%R.

#[export] Instance R_math : PyMath R := {
  math_radians := radians;
  math_sin := fun x => Ok (sin x);
  math_cos := fun x => Ok (cos x);
  math_sqrt := py_sqrt;
  math_atan2 := atan2;
  pow2 := fun x => (x ^ 2)%R
}.

Section Track.

Context {A : Type} {num : PyNum A} {math : PyMath A}.

Definition haversine (lat1 lon1 lat2 lon2 : A) : result A :=
  let R := of_int 6371000 in
  let phi1 := math_radians lat1 in
  let phi2 := math_radians lat2 in
  let d_phi := math_radians (sub lat2 lat1) in
  let d_lambda := math_radians (sub lon2 lon1) in
  s1 <- math_sin (quot d_phi (of_int 2)) ;;
  c1 <- math_cos phi1 ;;
  c2 <- math_cos phi2 ;;
  s2 <- math_sin (quot d_lambda (of_int 2)) ;;
  let a := add (pow2 s1) (mul (mul c1 c2) (pow2 s2)) in
  x <- math_sqrt a ;;
  y <- math_sqrt (sub (of_int 1) a) ;;
  let c := mul (of_int 2) (math_atan2 x y) in
  Ok (mul R c).

(** ** Track profile builder *)

(** The [for i in range(1, len(trkpts))] loop, at index [i] with [n]
    iterations left, on the list [dists] built so far.  A track point is
    the tuple [(lat, lon, ele)]. *)
Fixpoint compute_distances_loop (trkpts : list (A * A * A)) (i n : nat)
  (dists : list A) : result (list A) :=
  match n with
  | O => Ok dists
  | S n' =>
      p1 <- py_index trkpts (i - 1) ;;
      p2 <- py_index trkpts i ;;
      let '(lat1, lon1, _) := p1 in
      let '(lat2, lon2, _) := p2 in
      d <- haversine lat1 lon1 lat2 lon2 ;;
      l <- py_last dists ;;
      compute_distances_loop trkpts (S i) n' (dists ++ [add l d])
  end.

Definition compute_distances (trkpts : list (A * A * A)) : result (list A) :=
  compute_distances_loop trkpts 1 (length trkpts - 1) [of_int 0].

(** ** Waypoint projector *)

(** [d < min_dist], where [None] is the initial [float('inf')]: every
    distance the scan meets first is taken. *)
Definition below (d : A) (min_dist : option A) : bool :=
  match min_dist with
  | None => true
  | Some m => ltb d m
  end.

(** The [for i, (tlat, tlon, _) in enumerate(trkpts)] loop, on the points
    left from index [i] on. *)
Fixpoint nearest_loop (lat lon : A) (trkpts : list (A * A * A)) (i : nat)
  (min_idx : nat) (min_dist : option A) : result nat :=
  match trkpts with
  | [] => Ok min_idx
  | (tlat, tlon, _) :: rest =>
      d <- haversine lat lon tlat tlon ;;
      if below d min_dist then nearest_loop lat lon rest (S i) i (Some d)
      else nearest_loop lat lon rest (S i) min_idx min_dist
  end.

(** A waypoint is the tuple [(lat, lon, name)]. *)
Fixpoint waypoint_positions (wpts : list (A * A * string))
  (trkpts : list (A * A * A)) (dists : list A)
  : result (list (A * string)) :=
  match wpts with
  | [] => Ok []
  | (lat, lon, name) :: rest =>
      min_idx <- nearest_loop lat lon trkpts 0 0 None ;;
      pos <- py_index dists min_idx ;;
      positions <- waypoint_positions rest trkpts dists ;;
      Ok ((pos, name) :: positions)
  end.

(** ** What the properties of the track speak of *)

(** [d] is the distance [haversine] returns from track point [j] to the
    next one. *)
Definition leg (trkpts : list (A * A * A)) (j : nat) (d : A) : Prop :=
  exists lat1 lon1 ele1 lat2 lon2 ele2,
    nth_error trkpts j = Some (lat1, lon1, ele1) /\
    nth_error trkpts (S j) = Some (lat2, lon2, ele2) /\
    haversine lat1 lon1 lat2 lon2 = Ok d.

(** Each distance is its predecessor plus the leg between the two track
    points. *)
Definition cumulative (trkpts : list (A * A * A)) (dists : list A) : Prop :=
  forall j a b d,
    nth_error dists j = Some a -> nth_error dists (S j) = Some b ->
    leg trkpts j d -> b = add a d.

(** By the code's own [<=], no element is below its predecessor. *)
Definition ascending (l : list A) : Prop :=
  forall i a b,
    nth_error l i = Some a -> nth_error l (S i) = Some b -> leb a b = true.

(** [d] is the distance [haversine] returns from [(lat, lon)] to the
    track point [p]. *)
Definition dist_to (lat lon : A) (p : A * A * A) (d : A) : Prop :=
  haversine lat lon (fst (fst p)) (snd (fst p)) = Ok d.

(** [i] is the lowest index of a track point nearest to [(lat, lon)], by
    the distances [haversine] returns and the code's own comparisons. *)
Definition first_nearest (lat lon : A) (trkpts : list (A * A * A)) (i : nat)
  : Prop :=
  exists p d,
    nth_error trkpts i = Some p /\ dist_to lat lon p d /\
    (forall j q dq, nth_error trkpts j = Some q -> dist_to lat lon q dq ->
                    leb d dq = true) /\
    (forall j q dq, (j < i)%nat -> nth_error trkpts j = Some q ->
                    dist_to lat lon q dq -> ltb d dq = true).

(** What the scan of [nearest_loop] holds after the points [pre]: nothing
    yet, or the lowest index of a nearest point of [pre] and its
    distance. *)
Definition scanned (lat lon : A) (pre : list (A * A * A)) (min_idx : nat)
  (min_dist : option A) : Prop :=
  match min_dist with
  | None => pre = [] /\ min_idx = 0%nat
  | Some m =>
      exists p,
        nth_error pre min_idx = Some p /\ dist_to lat lon p m /\
        (forall j q dq, nth_error pre j = Some q -> dist_to lat lon q dq ->
                        leb m dq = true) /\
        (forall j q dq, (j < min_idx)%nat -> nth_error pre j = Some q ->
                        dist_to lat lon q dq -> ltb m dq = true)
  end.

(** What the scan asks of the order of the numbers [number] holds of (in
    binary64: of every value but NaN). *)
Record ordered (number : A -> Prop) : Prop := {
  ord_refl : forall x, number x -> leb x x = true;
  ord_lt_le : forall x y, ltb x y = true -> leb x y = true;
  ord_lt_le_trans :
    forall x y z, ltb x y = true -> leb y z = true -> ltb x z = true;
  ord_total :
    forall x y, number x -> number y -> ltb x y = false -> leb y x = true
}.

End Track.

(** The track points and waypoints of the exact embedding. *)
Definition trkpt : Type := (R * R * R)%type.
Definition wpt : Type := (R * R * string)%type.

(** The argument [a] of the two square roots in [haversine], over the
    reals. *)
Definition haversine_a (lat1 lon1 lat2 lon2 : R) : R :=
  let phi1 := radians lat1 in
  let phi2 := radians lat2 in
  let d_phi := radians (lat2 - lat1) in
  let d_lambda := radians (lon2 - lon1) in
  (sin (d_phi / 2) ^ 2 + cos phi1 * cos phi2 * sin (d_lambda / 2) ^ 2)%R.

(** The value [haversine] returns over the reals (see
    [haversine_returns]). *)
Definition great_circle (lat1 lon1 lat2 lon2 : R) : R :=
  let a := haversine_a lat1 lon1 lat2 lon2 in
  (6371000 * (2 * atan2 (sqrt a) (sqrt (1 - a))))%R.

(** Each element is greater than or equal to its predecessor. *)
Definition nondecreasing (l : list R) : Prop :=
  forall i a b,
    nth_error l i = Some a -> nth_error l (S i) = Some b -> (a <= b)%R.

(** Each element is greater than its predecessor. *)
Definition increasing (l : list R) : Prop :=
  forall i a b,
    nth_error l i = Some a -> nth_error l (S i) = Some b -> (a < b)%R.

(** ** Plotting and the command line *)

(** What the program does to the outside: the line it prints and the
    matplotlib calls of [plot_profile], with the data they are given. *)
Inductive event : Type :=
| EvPrint (s : string)
| EvSubplots
| EvPlot (xs ys : list R)
| EvFillBetween (xs ys zs : list R) (c : color)
| EvScatter (xs ys : list R)
| EvText (x y : R) (s : string)
| EvSetXlabel (s : string)
| EvSetYlabel (s : string)
| EvSetTitle (s : string)
| EvTightLayout
| EvShow.

(** A run leaves the events it got to, and returns or raises. *)
Definition io (A : Type) : Type := (list event * result A)%type.

Definition io_ret {A : Type} (a : A) : io A := ([], Ok a).

Definition io_bind {A B : Type} (c : io A) (k : A -> io B) : io B :=
  match c with
  | (t, Ok a) => let (t', r) := k a in (t ++ t', r)
  | (t, Raise e) => (t, Raise e)
  end.

Definition emit (e : event) : io unit := ([e], Ok tt).

Definition lift {A : Type} (r : result A) : io A := ([], r).

Notation "x <~ c ;; k" := (io_bind c (fun x => k))
  (at level 61, c at next level, right associativity).

(** The [for start_d, end_d, slope in segments] loop of [plot_profile]. *)
Fixpoint fill_loop (dists eles : list R) (segments : list (R * R * R))
  : io unit :=
  match segments with
  | [] => io_ret tt
  | (start_d, end_d, slope) :: rest =>
      start_e <~ lift (interpolate_elevation start_d dists eles) ;;
      let inner :=
        filter (fun de => ltb start_d (fst de) && ltb (fst de) end_d)
               (combine dists eles) in
      end_e <~ lift (interpolate_elevation end_d dists eles) ;;
      let seg_d := [start_d] ++ map fst inner ++ [end_d] in
      let seg_e := [start_e] ++ map snd inner ++ [end_e] in
      let color := slope_to_color slope in
      _ <~ emit (EvFillBetween seg_d seg_e (repeat 0%R (length seg_d)) color) ;;
      fill_loop dists eles rest
  end.

(** The [for dist_pos, name in positions] loop of [plot_profile]. *)
Fixpoint mark_loop (dists eles : list R) (positions : list (R * string))
  : io unit :=
  match positions with
  | [] => io_ret tt
  | (dist_pos, name) :: rest =>
      ele <~ lift (interpolate_elevation dist_pos dists eles) ;;
      _ <~ emit (EvScatter [dist_pos] [ele]) ;;
      _ <~ emit (EvText dist_pos (ele + 5)%R name) ;;
      mark_loop dists eles rest
  end.

Definition plot_profile (trkpts : list trkpt) (wpts : list wpt) : io unit :=
  dists <~ lift (compute_distances trkpts) ;;
  let eles := map (fun pt : trkpt => snd pt) trkpts in
  segments <~ lift (segment_slopes dists eles default_segment) ;;
  _ <~ emit EvSubplots ;;
  _ <~ emit (EvPlot dists eles) ;;
  _ <~ fill_loop dists eles segments ;;
  positions <~ lift (waypoint_positions wpts trkpts dists) ;;
  _ <~ mark_loop dists eles positions ;;
  _ <~ emit (EvSetXlabel "Distance (m)") ;;
  _ <~ emit (EvSetYlabel "Elevation (m)") ;;
  _ <~ emit (EvSetTitle "Elevation Profile with Slope Coloring") ;;
  _ <~ emit EvTightLayout ;;
  emit EvShow.

(** [main] from the result of [parse_gpx] on: reading the command line and
    the file is left to [argparse] and [ElementTree]. *)
Definition main (parsed : list trkpt * list wpt) : io unit :=
  let '(trkpts, wpts) := parsed in
  match trkpts with
  | [] => emit (EvPrint "No track points found.")
  | _ :: _ => plot_profile trkpts wpts
  end.

(** ** What the properties speak of *)

(** Where the scan of [interpolate_elevation] for the query [q] stops: at
    the first index [i] from 1 on with [q <= dists[i]], between the samples
    [(d0, e0)] and [(d1, e1)]. *)
Definition stops_at (q : R) (dists eles : list R) (i : nat)
  (d0 d1 e0 e1 : R) : Prop :=
  (1 <= i)%nat /\
  (forall j dj, (1 <= j < i)%nat -> nth_error dists j = Some dj ->
                (dj < q)%R) /\
  nth_error dists (i - 1) = Some d0 /\ nth_error dists i = Some d1 /\
  nth_error eles (i - 1) = Some e0 /\ nth_error eles i = Some e1 /\
  (q <= d1)%R.

(** The scan passes every index: each distance from index 1 on is below
    the query. *)
Definition passes_all (q : R) (dists : list R) : Prop :=
  forall j dj, (1 <= j)%nat -> nth_error dists j = Some dj -> (dj < q)%R.



(** The colours in the order of the cascade, from downhill to the
    steepest. *)
Definition color_rank (c : color) : nat :=
  match c with
  | blue => 0
  | darkgreen => 1
  | limegreen => 2
  | yellow => 3
  | orange => 4
  | red => 5
  end.

(** The [fill_between] call that draws the segment [s]: one x for each y
    and each zero, from the start of the segment to its end without going
    back, in the colour of its slope. *)
Definition fills_segment (s : R * R * R) (ev : event) : Prop :=
  exists xs ys,
    ev = EvFillBetween xs ys (repeat 0%R (length xs))
                       (slope_to_color (seg_slope s)) /\
    length ys = length xs /\
    nth_error xs 0 = Some (seg_start s) /\
    py_last xs = Ok (seg_end s) /\
    nondecreasing xs.

(** * Properties *)

(** ** The comparisons of the exact embeddings *)

(** The comparisons of the real embedding decide the order of [R]. *)
Lemma R_ltb_lt (x y : R) : ltb x y = true <-> (x < y)%R.
Proof. cbn. destruct (Rlt_dec x y); split; auto; discriminate. Qed.

Lemma R_leb_le (x y : R) : leb x y = true <-> (x <= y)%R.
Proof. cbn. destruct (Rle_dec x y); split; auto; discriminate. Qed.

Lemma R_eqb_eq (x y : R) : eqb x y = true <-> x = y.
Proof. cbn. destruct (Req_dec_T x y); split; auto; discriminate. Qed.

Lemma R_ltb_ge (x y : R) : ltb x y = false <-> (y <= x)%R.
Proof.
  rewrite <- not_true_iff_false, R_ltb_lt. split; lra.
Qed.

Lemma R_leb_gt (x y : R) : leb x y = false <-> (y < x)%R.
Proof.
  rewrite <- not_true_iff_false, R_leb_le. split; lra.
Qed.

Lemma R_eqb_neq (x y : R) : eqb x y = false <-> x <> y.
Proof.
  rewrite <- not_true_iff_false, R_eqb_eq. tauto.
Qed.

(** Turns the comparisons of the real embedding met in the goal or in a
    hypothesis into order facts, one case split at a time. *)
Ltac R_compare :=
  repeat match goal with
  | H : ltb _ _ = true |- _ => apply R_ltb_lt in H
  | H : ltb _ _ = false |- _ => apply R_ltb_ge in H
  | H : leb _ _ = true |- _ => apply R_leb_le in H
  | H : leb _ _ = false |- _ => apply R_leb_gt in H
  | H : eqb _ _ = true |- _ => apply R_eqb_eq in H
  | H : eqb _ _ = false |- _ => apply R_eqb_neq in H
  end.

Lemma Q_eqb_eq (x y : Q) : eqb x y = true <-> (x == y)%Q.
Proof. apply Qeq_bool_iff. Qed.

(** The guard [d1 == d0] of the interpolator relies on one fact about the
    arithmetic: a difference that compares equal to zero is a difference
    of equal numbers.  Both exact embeddings have it. *)
Lemma R_sub_zero (x y : R) : eqb (sub x y) (of_int 0) = true -> eqb x y = true.
Proof. rewrite !R_eqb_eq. cbn. intros H. lra. Qed.

Lemma Q_sub_zero (x y : Q) : eqb (sub x y) (of_int 0) = true -> eqb x y = true.
Proof.
  intros H. apply Q_eqb_eq in H. apply Q_eqb_eq.
  change (x - y == 0)%Q in H. lra.
Qed.

(** ** Lists and exceptions *)

(** Indexing within the length returns the element; nothing here raises
    [ZeroDivisionError]. *)
Lemma py_index_lt {A : Type} (l : list A) (i : nat) :
  (i < length l)%nat -> exists a, py_index l i = Ok a /\ nth_error l i = Some a.
Proof.
  intros H. unfold py_index.
  destruct (nth_error l i) eqn:E; [eauto |].
  apply nth_error_None in E. lia.
Qed.

Lemma py_index_Some {A : Type} (l : list A) (i : nat) (a : A) :
  nth_error l i = Some a -> py_index l i = Ok a.
Proof. intros H. unfold py_index. rewrite H. reflexivity. Qed.

Lemma py_index_not_zero_division {A : Type} (l : list A) (i : nat) :
  py_index l i <> Raise ZeroDivisionError.
Proof. unfold py_index. destruct (nth_error l i); discriminate. Qed.

Lemma py_last_not_zero_division {A : Type} (l : list A) :
  py_last l <> Raise ZeroDivisionError.
Proof. destruct l; discriminate. Qed.

Lemma py_last_nonempty {A : Type} (l : list A) :
  l <> [] -> exists a, py_last l = Ok a.
Proof. destruct l as [| a l]; [contradiction | cbn; eauto]. Qed.

(** [l[-1]] on a list built by [append]. *)
Lemma py_last_snoc {A : Type} (l : list A) (x : A) : py_last (l ++ [x]) = Ok x.
Proof.
  destruct l as [| a l]; [reflexivity |].
  cbn. f_equal. apply last_last.
Qed.

Lemma nth_error_snoc_last {A : Type} (l : list A) (x : A) :
  nth_error (l ++ [x]) (length l) = Some x.
Proof.
  rewrite nth_error_app2, Nat.sub_diag by lia. reflexivity.
Qed.

Lemma nth_error_snoc_inv {A : Type} (l : list A) (x : A) (j : nat) (q : A) :
  nth_error (l ++ [x]) j = Some q ->
  ((j < length l)%nat /\ nth_error l j = Some q) \/ (j = length l /\ q = x).
Proof.
  intros H. destruct (Nat.lt_ge_cases j (length l)) as [Hj | Hj].
  - left. rewrite nth_error_app1 in H by lia. auto.
  - right. rewrite nth_error_app2 in H by lia.
    destruct (j - length l)%nat as [| k] eqn:E; cbn in H.
    + split; [lia | congruence].
    + destruct k; discriminate.
Qed.

Lemma py_last_nth {A : Type} (l : list A) (a : A) :
  py_last l = Ok a -> nth_error l (length l - 1) = Some a.
Proof.
  destruct l as [| x l]; [discriminate |].
  destruct (exists_last (l := x :: l)) as [init [y E]]; [discriminate |].
  rewrite E, py_last_snoc, length_app. intros H. injection H as ->.
  replace (length init + length [a] - 1)%nat with (length init)
    by (simpl; lia).
  apply nth_error_snoc_last.
Qed.

Lemma nth_error_map_seq {B : Type} (g : nat -> B) (n j : nat) :
  (j < n)%nat -> nth_error (map g (seq 0 n)) j = Some (g j).
Proof.
  intros H. rewrite nth_error_map, nth_error_seq.
  destruct (Nat.ltb_spec j n); [reflexivity | lia].
Qed.

Lemma py_last_map_seq {B : Type} (g : nat -> B) (n : nat) :
  py_last (map g (seq 0 (S n))) = Ok (g n).
Proof.
  rewrite seq_S, map_app. cbn [map Nat.add]. apply py_last_snoc.
Qed.

(** ** Geodesy *)

Section Geodesy.

Local Open Scope R_scope.

(** Both square roots of [haversine] are taken of a number in [0, 1]:
    with [x] the mean and [y] half the difference of the two latitudes,
    [a] is a mean of [sin y ^ 2] and [cos x ^ 2]. *)
Lemma haversine_a_range (lat1 lon1 lat2 lon2 : R) :
  0 <= haversine_a lat1 lon1 lat2 lon2 <= 1.
Proof.
  unfold haversine_a, radians.
  set (x := (lat2 + lat1) * PI / 180 / 2).
  set (y := (lat2 - lat1) * PI / 180 / 2).
  set (l := (lon2 - lon1) * PI / 180 / 2).
  replace (lat1 * PI / 180) with (x - y) by (unfold x, y; field).
  replace (lat2 * PI / 180) with (x + y) by (unfold x, y; field).
  rewrite cos_minus, cos_plus.
  pose proof (sin2_cos2 x) as Hx. pose proof (sin2_cos2 y) as Hy.
  pose proof (sin2_cos2 l) as Hl. unfold Rsqr in *.
  fold y. fold l.
  generalize dependent (sin x). generalize dependent (cos x).
  generalize dependent (sin y). generalize dependent (cos y).
  generalize dependent (sin l). generalize dependent (cos l).
  intros cl sl Hl cy sy Hy cx sx Hx.
  assert (E : sy ^ 2 + (cx * cy + sx * sy) * (cx * cy - sx * sy) * sl ^ 2
              = sy * sy * (1 - sl * sl) + cx * cx * (sl * sl)).
  { assert (hy : sy * sy + cy * cy - 1 = 0) by lra.
    assert (hx : sx * sx + cx * cx - 1 = 0) by lra.
    transitivity (sy * sy * (1 - sl * sl) + cx * cx * (sl * sl)
                  + sl * sl * (cx * cx * (sy * sy + cy * cy - 1)
                               - sy * sy * (sx * sx + cx * cx - 1))).
    - ring.
    - rewrite hy, hx. ring. }
  rewrite E.
  assert (0 <= sl * sl <= 1) by nra.
  assert (0 <= sy * sy <= 1) by nra.
  assert (0 <= cx * cx <= 1) by nra.
  nra.
Qed.

(** Over the reals [haversine] raises nothing. *)
Lemma haversine_returns (lat1 lon1 lat2 lon2 : R) :
  haversine lat1 lon1 lat2 lon2 = Ok (great_circle lat1 lon1 lat2 lon2).
Proof.
  pose proof (haversine_a_range lat1 lon1 lat2 lon2) as [Ha0 Ha1].
  unfold haversine.
  cbn [math_sin math_cos math_sqrt math_atan2 math_radians pow2 R_math bind
       of_int add sub mul quot R_num].
  fold (haversine_a lat1 lon1 lat2 lon2). unfold great_circle, py_sqrt.
  destruct (Rlt_dec (haversine_a lat1 lon1 lat2 lon2) 0); [lra |].
  cbn [bind].
  destruct (Rlt_dec (1 - haversine_a lat1 lon1 lat2 lon2) 0); [lra |].
  reflexivity.
Qed.

(** In the first quadrant [math.atan2] is not negative. *)
Lemma atan2_nonneg (y x : R) : 0 <= y -> 0 <= x -> 0 <= atan2 y x.
Proof.
  intros Hy Hx. unfold atan2.
  destruct (Rlt_dec 0 x) as [Hpos | _].
  - destruct (Rle_lt_or_eq_dec 0 (y / x)) as [Hlt | Heq].
    + apply Rmult_le_pos; [lra | left; apply Rinv_0_lt_compat; lra].
    + left. rewrite <- atan_0. apply atan_increasing. exact Hlt.
    + rewrite <- Heq, atan_0. lra.
  - destruct (Rlt_dec x 0); [lra |].
    destruct (Rlt_dec 0 y).
    + pose proof PI_RGT_0. lra.
    + destruct (Rlt_dec y 0); lra.
Qed.

Lemma great_circle_nonneg (lat1 lon1 lat2 lon2 : R) :
  0 <= great_circle lat1 lon1 lat2 lon2.
Proof.
  unfold great_circle. cbv zeta.
  pose proof (atan2_nonneg _ _ (sqrt_pos (haversine_a lat1 lon1 lat2 lon2))
                (sqrt_pos (1 - haversine_a lat1 lon1 lat2 lon2))).
  lra.
Qed.

Lemma haversine_a_same (lat lon : R) : haversine_a lat lon lat lon = 0.
Proof.
  unfold haversine_a, radians.
  replace ((lat - lat) * PI / 180 / 2) with 0 by field.
  replace ((lon - lon) * PI / 180 / 2) with 0 by field.
  rewrite sin_0. ring.
Qed.

Lemma great_circle_same (lat lon : R) : great_circle lat lon lat lon = 0.
Proof.
  unfold great_circle. rewrite haversine_a_same. cbv zeta.
  rewrite Rminus_0_r, sqrt_0, sqrt_1. unfold atan2.
  destruct (Rlt_dec 0 1); [| lra].
  replace (0 / 1) with 0 by field. rewrite atan_0. ring.
Qed.

End Geodesy.

(** ** More on the geodesy *)

Section GeodesyArcs.

Local Open Scope R_scope.

(** The angle of the point [(cos t, sin t)] of the first quadrant. *)
Lemma atan2_sin_cos (t : R) :
  0 <= t <= PI / 2 -> atan2 (sin t) (cos t) = t.
Proof.
  intros [H0 H1]. unfold atan2.
  destruct (Rle_lt_or_eq_dec t (PI / 2) H1) as [Hlt | ->].
  - assert (Hc : 0 < cos t) by (apply cos_gt_0; lra).
    destruct (Rlt_dec 0 (cos t)); [| lra].
    change (sin t / cos t) with (tan t). apply atan_tan. lra.
  - rewrite cos_PI2, sin_PI2.
    destruct (Rlt_dec 0 0); [lra |].
    destruct (Rlt_dec 0 1); [reflexivity | lra].
Qed.

(** When [a] is the squared sine of an angle [t] up to a right angle, the
    distance is the arc of angle [2 t] on the sphere. *)
Lemma great_circle_arc (lat1 lon1 lat2 lon2 t : R) :
  0 <= t <= PI / 2 ->
  haversine_a lat1 lon1 lat2 lon2 = sin t ^ 2 ->
  great_circle lat1 lon1 lat2 lon2 = 6371000 * (2 * t).
Proof.
  intros Ht Ha. unfold great_circle. rewrite Ha. cbv zeta.
  assert (Hs : 0 <= sin t) by (apply sin_ge_0; pose proof PI_RGT_0; lra).
  assert (Hc : 0 <= cos t) by (apply cos_ge_0; lra).
  rewrite (sqrt_pow2 (sin t) Hs).
  replace (1 - sin t ^ 2) with (cos t ^ 2)
    by (pose proof (sin2_cos2 t) as H; unfold Rsqr in H; lra).
  rewrite (sqrt_pow2 (cos t) Hc), (atan2_sin_cos t Ht). reflexivity.
Qed.

Lemma sin_sqr_abs (x : R) : sin x ^ 2 = sin (Rabs x) ^ 2.
Proof.
  unfold Rabs. destruct (Rcase_abs x); [rewrite sin_neg; ring | reflexivity].
Qed.

Lemma haversine_a_meridian (lat1 lat2 lon : R) :
  haversine_a lat1 lon lat2 lon
  = sin (Rabs (lat2 - lat1) * PI / 180 / 2) ^ 2.
Proof.
  unfold haversine_a, radians.
  replace ((lon - lon) * PI / 180 / 2) with 0 by field.
  rewrite sin_0, (sin_sqr_abs ((lat2 - lat1) * PI / 180 / 2)).
  replace (Rabs ((lat2 - lat1) * PI / 180 / 2))
    with (Rabs (lat2 - lat1) * PI / 180 / 2).
  - ring.
  - pose proof PI_RGT_0.
    unfold Rdiv. rewrite !Rabs_mult.
    rewrite (Rabs_pos_eq PI), (Rabs_pos_eq (/ 180)), (Rabs_pos_eq (/ 2));
      lra.
Qed.

Lemma haversine_a_equator (lon1 lon2 : R) :
  haversine_a 0 lon1 0 lon2
  = sin (Rabs (lon2 - lon1) * PI / 180 / 2) ^ 2.
Proof.
  unfold haversine_a, radians.
  replace ((0 - 0) * PI / 180 / 2) with 0 by field.
  replace (0 * PI / 180) with 0 by field.
  rewrite sin_0, cos_0, (sin_sqr_abs ((lon2 - lon1) * PI / 180 / 2)).
  replace (Rabs ((lon2 - lon1) * PI / 180 / 2))
    with (Rabs (lon2 - lon1) * PI / 180 / 2).
  - ring.
  - pose proof PI_RGT_0.
    unfold Rdiv. rewrite !Rabs_mult.
    rewrite (Rabs_pos_eq PI), (Rabs_pos_eq (/ 180)), (Rabs_pos_eq (/ 2));
      lra.
Qed.

(** Along a meridian [haversine] is the length of the arc: the Earth
    radius times the difference of the latitudes in radians. *)
Theorem haversine_meridian (lat1 lat2 lon : R) :
  Rabs (lat2 - lat1) <= 180 ->
  haversine lat1 lon lat2 lon
  = Ok (6371000 * (Rabs (lat2 - lat1) * PI / 180)).
Proof.
  intros H. rewrite haversine_returns. f_equal.
  rewrite (great_circle_arc lat1 lon lat2 lon
             (Rabs (lat2 - lat1) * PI / 180 / 2)).
  - field.
  - pose proof PI_RGT_0. pose proof (Rabs_pos (lat2 - lat1)). split; nra.
  - apply haversine_a_meridian.
Qed.

Lemma haversine_meridian_witness :
  haversine 10 20 50 20 = Ok (6371000 * (Rabs (50 - 10) * PI / 180)).
Proof.
  apply (haversine_meridian 10 50 20).
  replace (50 - 10) with 40 by lra. rewrite Rabs_pos_eq; lra.
Defined.

(** Along the equator [haversine] is the length of the arc: the Earth
    radius times the difference of the longitudes in radians. *)
Theorem haversine_equator (lon1 lon2 : R) :
  Rabs (lon2 - lon1) <= 180 ->
  haversine 0 lon1 0 lon2
  = Ok (6371000 * (Rabs (lon2 - lon1) * PI / 180)).
Proof.
  intros H. rewrite haversine_returns. f_equal.
  rewrite (great_circle_arc 0 lon1 0 lon2
             (Rabs (lon2 - lon1) * PI / 180 / 2)).
  - field.
  - pose proof PI_RGT_0. pose proof (Rabs_pos (lon2 - lon1)). split; nra.
  - apply haversine_a_equator.
Qed.

Lemma haversine_equator_witness :
  haversine 0 0 0 90 = Ok (6371000 * (Rabs (90 - 0) * PI / 180)).
Proof.
  apply (haversine_equator 0 90).
  replace (90 - 0) with 90 by lra. rewrite Rabs_pos_eq; lra.
Defined.

End GeodesyArcs.

(** ** Track profile builder *)

Section TrackProfile.

Context {A : Type} {num : PyNum A} {math : PyMath A}.

(** Two legs from the same track point are the same distance. *)
Lemma leg_unique (trkpts : list (A * A * A)) (j : nat) (d d' : A) :
  leg trkpts j d -> leg trkpts j d' -> d = d'.
Proof.
  intros [la1 [lo1 [e1 [la2 [lo2 [e2 [H1 [H2 H3]]]]]]]]
         [lb1 [mo1 [f1 [lb2 [mo2 [f2 [G1 [G2 G3]]]]]]]].
  rewrite H1 in G1. rewrite H2 in G2.
  injection G1 as <- <- <-. injection G2 as <- <- <-. congruence.
Qed.

(** Appending the last distance plus the next leg keeps the series the
    running sum of the legs. *)
Lemma cumulative_snoc (trkpts : list (A * A * A)) (init : list A) (l d : A) :
  cumulative trkpts (init ++ [l]) ->
  leg trkpts (length init) d ->
  cumulative trkpts ((init ++ [l]) ++ [add l d]).
Proof.
  intros Hc Hleg j a b d' Ha Hb Hd'.
  assert (Hlen : length (init ++ [l]) = S (length init))
    by (rewrite length_app; simpl; lia).
  destruct (Nat.lt_ge_cases (S j) (length (init ++ [l]))) as [Hj | Hj].
  - rewrite nth_error_app1 in Ha, Hb by lia. eauto.
  - destruct (Nat.eq_dec j (length init)) as [-> | Hne].
    + rewrite nth_error_app1, nth_error_snoc_last in Ha by lia.
      rewrite <- Hlen, nth_error_snoc_last in Hb.
      injection Ha as <-. injection Hb as <-.
      rewrite (leg_unique trkpts (length init) d d' Hleg Hd'). reflexivity.
    + assert (Hnone : nth_error ((init ++ [l]) ++ [add l d]) (S j) = None).
      { apply nth_error_None. rewrite length_app, Hlen. simpl. lia. }
      congruence.
Qed.

(** The loop of [compute_distances], started at index [i] on a list of [i]
    distances, on a track every leg of which [haversine] returns: the loop
    returns, and keeps what the list built so far has. *)
Lemma compute_distances_loop_series (trkpts : list (A * A * A)) :
  (forall j, (S j < length trkpts)%nat -> exists d, leg trkpts j d) ->
  forall n i init l,
    i = S (length init) -> (n = 0 \/ i + n <= length trkpts)%nat ->
    exists ds,
      compute_distances_loop trkpts i n (init ++ [l]) = Ok ds /\
      length ds = (i + n)%nat /\
      nth_error ds 0 = nth_error (init ++ [l]) 0 /\
      (cumulative trkpts (init ++ [l]) -> cumulative trkpts ds).
Proof.
  intros Hlegs. induction n as [| n IH]; intros i init l Hi Hn.
  - exists (init ++ [l]). cbn. rewrite length_app. cbn.
    repeat split; auto; lia.
  - destruct (Hlegs (i - 1)%nat ltac:(lia))
      as [d [lat1 [lon1 [e1 [lat2 [lon2 [e2 [Hp1 [Hp2 Hd]]]]]]]]].
    replace (S (i - 1)) with i in Hp2 by lia.
    cbn [compute_distances_loop].
    rewrite (py_index_Some _ _ _ Hp1), (py_index_Some _ _ _ Hp2).
    cbn [bind]. rewrite Hd, py_last_snoc. cbn [bind].
    destruct (IH (S i) (init ++ [l]) (add l d))
      as [ds [Hds [Hlen [Hhd Hcum]]]].
    { rewrite length_app. simpl. lia. }
    { lia. }
    exists ds. rewrite Hds. repeat split.
    + lia.
    + rewrite Hhd. apply nth_error_app1. rewrite length_app. cbn. lia.
    + intros Hc. apply Hcum. apply cumulative_snoc; [exact Hc |].
      exists lat1, lon1, e1, lat2, lon2, e2.
      replace (length init) with (i - 1)%nat by lia.
      replace (S (i - 1)) with i by lia. auto.
Qed.

(** What [compute_distances] returns on a track every leg of which
    [haversine] returns. *)
Lemma compute_distances_series (trkpts : list (A * A * A)) :
  (forall j, (S j < length trkpts)%nat -> exists d, leg trkpts j d) ->
  exists ds,
    compute_distances trkpts = Ok ds /\
    length ds = Nat.max 1 (length trkpts) /\
    nth_error ds 0 = Some (of_int 0) /\
    cumulative trkpts ds.
Proof.
  intros Hlegs. unfold compute_distances.
  destruct (compute_distances_loop_series trkpts Hlegs (length trkpts - 1) 1
              [] (of_int 0))
    as [ds [Hds [Hlen [Hhd Hcum]]]]; [reflexivity | | ].
  - destruct trkpts; simpl length; lia.
  - exists ds. repeat split; auto.
    + rewrite Hlen. lia.
    + apply Hcum. intros [| j] a b d Ha Hb; cbn in *; discriminate.
Qed.

(** C7, as the code has it: on a track every leg of which [haversine]
    returns, the series has one distance per track point, except that the
    empty track still gets the initial [0.0]; its length is
    [max(1, len(trkpts))]. *)
Theorem compute_distances_length (trkpts : list (A * A * A)) :
  (forall j, (S j < length trkpts)%nat -> exists d, leg trkpts j d) ->
  exists dists,
    compute_distances trkpts = Ok dists /\
    length dists = Nat.max 1 (length trkpts).
Proof.
  intros Hlegs.
  destruct (compute_distances_series trkpts Hlegs) as [ds [Hds [Hlen _]]].
  exists ds. auto.
Qed.

(** The series is the running sum of the legs: it starts at 0, has one
    distance per track point, and each distance is the one before it plus
    what [haversine] returns for the two track points. *)
Theorem compute_distances_cumulative (trkpts : list (A * A * A)) :
  (forall j, (S j < length trkpts)%nat -> exists d, leg trkpts j d) ->
  exists dists,
    compute_distances trkpts = Ok dists /\
    length dists = Nat.max 1 (length trkpts) /\
    nth_error dists 0 = Some (of_int 0) /\
    cumulative trkpts dists.
Proof. exact (compute_distances_series trkpts). Qed.

(** A running sum of legs that are not negative never decreases, when
    adding a number that is not negative to another gives a number that is
    not negative and not below the first. *)
Lemma cumulative_ascending (trkpts : list (A * A * A)) (dists : list A) :
  leb (of_int 0) (of_int 0) = true ->
  (forall x d, leb (of_int 0) x = true -> leb (of_int 0) d = true ->
               leb x (add x d) = true /\ leb (of_int 0) (add x d) = true) ->
  (forall j, (S j < length trkpts)%nat ->
             exists d, leg trkpts j d /\ leb (of_int 0) d = true) ->
  length dists = Nat.max 1 (length trkpts) ->
  nth_error dists 0 = Some (of_int 0) ->
  cumulative trkpts dists ->
  forall i a,
    nth_error dists i = Some a ->
    leb (of_int 0) a = true /\
    forall b, nth_error dists (S i) = Some b -> leb a b = true.
Proof.
  intros H0 Hadd Hlegs Hlen Hhd Hcum.
  assert (Hstep : forall i a b,
            leb (of_int 0) a = true ->
            nth_error dists i = Some a -> nth_error dists (S i) = Some b ->
            leb a b = true /\ leb (of_int 0) b = true).
  { intros i a b Hpos Ha Hb.
    assert (Hi : (S i < length dists)%nat)
      by (apply nth_error_Some; congruence).
    destruct (Hlegs i) as [d [Hleg Hd]]; [lia |].
    rewrite (Hcum i a b d Ha Hb Hleg). apply Hadd; assumption. }
  induction i as [| i IH]; intros a Ha.
  - assert (a = of_int 0) by congruence. subst a.
    split; [exact H0 |]. intros b Hb.
    apply (Hstep 0%nat (of_int 0) b H0 Ha Hb).
  - assert (Hi : (i < length dists)%nat).
    { assert (S i < length dists)%nat by (apply nth_error_Some; congruence).
      lia. }
    destruct (nth_error dists i) as [c |] eqn:Hc;
      [| apply nth_error_None in Hc; lia].
    destruct (IH c eq_refl) as [Hc0 _].
    destruct (Hstep i c a Hc0 Hc Ha) as [_ Ha0].
    split; [exact Ha0 |]. intros b Hb.
    apply (Hstep (S i) a b Ha0 Ha Hb).
Qed.

(** On a track every leg of which [haversine] returns a distance that is
    not negative, the series is the running sum of the legs, starts at 0
    and never decreases, by the code's own [<=], in every arithmetic in
    which adding a number that is not negative to another gives a number
    that is not negative and not below the first. *)
Theorem compute_distances_ascending (trkpts : list (A * A * A)) :
  leb (of_int 0) (of_int 0) = true ->
  (forall x d, leb (of_int 0) x = true -> leb (of_int 0) d = true ->
               leb x (add x d) = true /\ leb (of_int 0) (add x d) = true) ->
  (forall j, (S j < length trkpts)%nat ->
             exists d, leg trkpts j d /\ leb (of_int 0) d = true) ->
  exists dists,
    compute_distances trkpts = Ok dists /\
    length dists = Nat.max 1 (length trkpts) /\
    nth_error dists 0 = Some (of_int 0) /\
    cumulative trkpts dists /\
    ascending dists.
Proof.
  intros H0 Hadd Hlegs.
  destruct (compute_distances_series trkpts) as [ds [Hds [Hlen [Hhd Hcum]]]].
  { intros j Hj. destruct (Hlegs j Hj) as [d [Hd _]]. exists d. exact Hd. }
  exists ds. repeat split; auto.
  intros i a b Ha Hb.
  destruct (cumulative_ascending trkpts ds H0 Hadd Hlegs Hlen Hhd Hcum i a Ha)
    as [_ Hle].
  apply Hle. exact Hb.
Qed.

End TrackProfile.

Section TrackProfileExact.

Local Open Scope R_scope.

(** Over the reals every leg is returned, and is not negative. *)
Lemma leg_exact (trkpts : list trkpt) (j : nat) :
  (S j < length trkpts)%nat ->
  exists d, leg trkpts j d /\ leb (of_int 0) d = true.
Proof.
  intros Hj.
  destruct (nth_error trkpts j) as [[[lat1 lon1] e1] |] eqn:H1;
    [| apply nth_error_None in H1; lia].
  destruct (nth_error trkpts (S j)) as [[[lat2 lon2] e2] |] eqn:H2;
    [| apply nth_error_None in H2; lia].
  exists (great_circle lat1 lon1 lat2 lon2). split.
  - exists lat1, lon1, e1, lat2, lon2, e2.
    repeat split; auto. apply haversine_returns.
  - apply R_leb_le. apply great_circle_nonneg.
Qed.

Lemma compute_distances_length_witness :
  exists dists,
    compute_distances [(0, 0, 0); (0, 1, 10); (0, 2, 5)] = Ok dists /\
    length dists = Nat.max 1 (length [(0, 0, 0); (0, 1, 10); (0, 2, 5)]).
Proof.
  apply (compute_distances_length [(0, 0, 0); (0, 1, 10); (0, 2, 5)]).
  intros j Hj.
  destruct (leg_exact [(0, 0, 0); (0, 1, 10); (0, 2, 5)] j Hj) as [d [Hd _]].
  exists d. exact Hd.
Defined.

(** C7 fails on the empty track: the series is [[0.0]], of length 1. *)
Lemma compute_distances_empty_track :
  compute_distances [] = Ok [0] /\ length [0] <> length (@nil trkpt).
Proof. split; [reflexivity | discriminate]. Qed.

Lemma compute_distances_cumulative_witness :
  exists dists,
    compute_distances [(0, 0, 0); (0, 1, 10); (0, 2, 5)] = Ok dists /\
    length dists = Nat.max 1 (length [(0, 0, 0); (0, 1, 10); (0, 2, 5)]) /\
    nth_error dists 0 = Some (of_int 0) /\
    cumulative [(0, 0, 0); (0, 1, 10); (0, 2, 5)] dists.
Proof.
  apply (compute_distances_cumulative [(0, 0, 0); (0, 1, 10); (0, 2, 5)]).
  intros j Hj.
  destruct (leg_exact [(0, 0, 0); (0, 1, 10); (0, 2, 5)] j Hj) as [d [Hd _]].
  exists d. exact Hd.
Defined.

Lemma compute_distances_ascending_witness :
  exists dists,
    compute_distances [(0, 0, 0); (0, 1, 10); (0, 2, 5)] = Ok dists /\
    length dists = Nat.max 1 (length [(0, 0, 0); (0, 1, 10); (0, 2, 5)]) /\
    nth_error dists 0 = Some (of_int 0) /\
    cumulative [(0, 0, 0); (0, 1, 10); (0, 2, 5)] dists /\
    ascending dists.
Proof.
  apply (compute_distances_ascending [(0, 0, 0); (0, 1, 10); (0, 2, 5)]).
  - apply R_leb_le. cbn. lra.
  - intros x d Hx Hd. apply R_leb_le in Hx, Hd. cbn in Hx, Hd.
    split; apply R_leb_le; cbn; lra.
  - intros j Hj. apply leg_exact. exact Hj.
Defined.

End TrackProfileExact.

(** ** Elevation interpolator *)

Section Interpolator.

Context {A : Type} {num : PyNum A}.

Hypothesis sub_zero :
  forall x y : A, eqb (sub x y) (of_int 0) = true -> eqb x y = true.

(** Behind the guard the division has a divisor that is not zero. *)
Lemma truediv_guarded (x d1 d0 : A) :
  eqb d1 d0 = false -> truediv x (sub d1 d0) = Ok (quot x (sub d1 d0)).
Proof.
  intros H. unfold truediv.
  destruct (eqb (sub d1 d0) (of_int 0)) eqn:E; [| reflexivity].
  apply sub_zero in E. congruence.
Qed.

(** The loop raises nothing but [IndexError]. *)
Lemma interpolate_loop_no_zero_division (distance : A) (dists eles : list A) :
  forall n i, interpolate_loop distance dists eles i n <> Raise ZeroDivisionError.
Proof.
  induction n as [| n IH]; intros i; cbn [interpolate_loop].
  - apply py_last_not_zero_division.
  - pose proof (py_index_not_zero_division dists i) as Hi.
    pose proof (py_index_not_zero_division dists (i - 1)) as Hi1.
    pose proof (py_index_not_zero_division eles i) as He.
    pose proof (py_index_not_zero_division eles (i - 1)) as He1.
    destruct (py_index dists i) as [di | x]; cbn [bind]; [| congruence].
    destruct (leb distance di); [| apply IH].
    destruct (py_index dists (i - 1)) as [d0 | x]; cbn [bind]; [| congruence].
    destruct (py_index eles (i - 1)) as [e0 | x]; cbn [bind]; [| congruence].
    destruct (py_index eles i) as [e1 | x]; cbn [bind]; [| congruence].
    destruct (eqb di d0) eqn:E; [discriminate |].
    rewrite truediv_guarded by exact E. discriminate.
Qed.

(** With one elevation per distance every index the loop reads is there. *)
Lemma interpolate_loop_returns (distance : A) (dists eles : list A) :
  length eles = length dists -> dists <> [] ->
  forall n i, (1 <= i)%nat -> (i + n <= length dists)%nat ->
    exists v, interpolate_loop distance dists eles i n = Ok v.
Proof.
  intros Hlen Hne. induction n as [| n IH]; intros i Hi Hn; cbn [interpolate_loop].
  - apply py_last_nonempty. intros ->. destruct dists; [contradiction | discriminate].
  - destruct (py_index_lt dists i) as [di [Hdi _]]; [lia |].
    destruct (py_index_lt dists (i - 1)) as [d0 [Hd0 _]]; [lia |].
    destruct (py_index_lt eles i) as [e1 [He1 _]]; [lia |].
    destruct (py_index_lt eles (i - 1)) as [e0 [He0 _]]; [lia |].
    rewrite Hdi. cbn [bind].
    destruct (leb distance di); [| apply IH; lia].
    rewrite Hd0, He0, He1. cbn [bind].
    destruct (eqb di d0) eqn:E; [eauto |].
    rewrite truediv_guarded by exact E. cbn [bind]. eauto.
Qed.

(** On a series that is not empty, with one elevation per distance,
    [interpolate_elevation] returns. *)
Lemma interpolate_elevation_returns (distance : A) (dists eles : list A) :
  length eles = length dists -> dists <> [] ->
  exists v, interpolate_elevation distance dists eles = Ok v.
Proof.
  intros Hlen Hne. apply interpolate_loop_returns; auto.
  destruct dists; [contradiction | cbn; lia].
Qed.

(** The loop passes every index whose distance is below the query. *)
Lemma interpolate_loop_skip (distance : A) (dists eles : list A) :
  forall m i n,
    (forall j, (i <= j < i + m)%nat ->
               exists d, nth_error dists j = Some d /\ leb distance d = false) ->
    interpolate_loop distance dists eles i (m + n)
    = interpolate_loop distance dists eles (i + m) n.
Proof.
  induction m as [| m IH]; intros i n Hskip.
  - rewrite Nat.add_0_r. reflexivity.
  - cbn [Nat.add interpolate_loop].
    destruct (Hskip i) as [d [Hd Hle]]; [lia |].
    rewrite (py_index_Some _ _ _ Hd). cbn [bind]. rewrite Hle.
    rewrite IH by (intros j Hj; apply Hskip; lia).
    f_equal. lia.
Qed.

(** At the first index whose distance reaches the query the loop returns. *)
Lemma interpolate_loop_hit (distance : A) (dists eles : list A)
  (i n : nat) (d0 d1 e0 e1 : A) :
  nth_error dists (i - 1) = Some d0 -> nth_error dists i = Some d1 ->
  nth_error eles (i - 1) = Some e0 -> nth_error eles i = Some e1 ->
  leb distance d1 = true ->
  interpolate_loop distance dists eles i (S n)
  = if eqb d1 d0 then Ok e1
    else Ok (add e0 (mul (quot (sub distance d0) (sub d1 d0)) (sub e1 e0))).
Proof.
  intros Hd0 Hd1 He0 He1 Hle. cbn [interpolate_loop].
  rewrite (py_index_Some _ _ _ Hd1). cbn [bind]. rewrite Hle.
  rewrite (py_index_Some _ _ _ Hd0), (py_index_Some _ _ _ He0),
    (py_index_Some _ _ _ He1). cbn [bind].
  destruct (eqb d1 d0) eqn:E; [reflexivity |].
  rewrite truediv_guarded by exact E. reflexivity.
Qed.

(** The query is answered at index [i] when [i] is the first index from 1
    on whose distance reaches it. *)
Lemma interpolate_elevation_first (distance : A) (dists eles : list A)
  (i : nat) (d0 d1 e0 e1 : A) :
  (1 <= i)%nat ->
  (forall j, (1 <= j < i)%nat ->
             exists d, nth_error dists j = Some d /\ leb distance d = false) ->
  nth_error dists (i - 1) = Some d0 -> nth_error dists i = Some d1 ->
  nth_error eles (i - 1) = Some e0 -> nth_error eles i = Some e1 ->
  leb distance d1 = true ->
  interpolate_elevation distance dists eles
  = if eqb d1 d0 then Ok e1
    else Ok (add e0 (mul (quot (sub distance d0) (sub d1 d0)) (sub e1 e0))).
Proof.
  intros Hi Hskip Hd0 Hd1 He0 He1 Hle. unfold interpolate_elevation.
  assert (Hlt : (i < length dists)%nat) by (apply nth_error_Some; congruence).
  replace (length dists - 1)%nat with ((i - 1) + S (length dists - 1 - i))%nat
    by lia.
  rewrite interpolate_loop_skip by (intros j Hj; apply Hskip; lia).
  replace (1 + (i - 1))%nat with i by lia.
  apply interpolate_loop_hit; assumption.
Qed.

End Interpolator.

Section InterpolatorExact.

Local Open Scope R_scope.

(** Distances that increase from each index to the next increase from
    each index to every later one. *)
Lemma increasing_lt (l : list R) :
  increasing l ->
  forall j i a b, (i < j)%nat ->
    nth_error l i = Some a -> nth_error l j = Some b -> a < b.
Proof.
  intros Hinc. induction j as [| j IH]; intros i a b Hij Ha Hb; [lia |].
  assert (Hj : (j < length l)%nat).
  { assert (S j < length l)%nat by (apply nth_error_Some; congruence). lia. }
  destruct (nth_error l j) as [c |] eqn:Hc;
    [| apply nth_error_None in Hc; lia].
  pose proof (Hinc j c b Hc Hb) as Hcb.
  destruct (Nat.eq_dec i j) as [-> | Hne].
  - congruence.
  - pose proof (IH i a c ltac:(lia) Ha eq_refl). lra.
Qed.

(** C3, as the code has it: when the distances increase strictly, the
    elevation interpolated at the distance of a sample is the elevation of
    that sample, exactly. *)
Theorem interpolate_elevation_at_sample (dists eles : list R) (i : nat)
  (d e : R) :
  length eles = length dists -> increasing dists ->
  nth_error dists i = Some d -> nth_error eles i = Some e ->
  interpolate_elevation d dists eles = Ok e.
Proof.
  intros Hlen Hinc Hd He.
  assert (Hi : (i < length dists)%nat) by (apply nth_error_Some; congruence).
  destruct i as [| i].
  - (* the first sample *)
    destruct dists as [| x0 [| x1 dists]]; [discriminate | |].
    + destruct eles as [| y0 [| y1 eles]]; try discriminate.
      cbn in He. injection He as <-. reflexivity.
    + destruct eles as [| y0 [| y1 eles]]; try discriminate.
      cbn in Hd, He. injection Hd as <-. injection He as <-.
      pose proof (Hinc 0%nat x0 x1 eq_refl eq_refl) as Hlt.
      assert (Hle : leb x0 x1 = true) by (apply R_leb_le; lra).
      assert (E : eqb x1 x0 = false) by (apply R_eqb_neq; lra).
      rewrite (interpolate_elevation_first R_sub_zero x0 (x0 :: x1 :: dists)
                 (y0 :: y1 :: eles) 1 x0 x1 y0 y1 (le_n 1)
                 ltac:(intros j Hj; lia) eq_refl eq_refl eq_refl eq_refl Hle).
      rewrite E. cbn. f_equal. field. lra.
  - (* a later sample: every index before it is passed *)
    destruct (nth_error dists i) as [d0 |] eqn:Hd0;
      [| apply nth_error_None in Hd0; lia].
    destruct (nth_error eles i) as [e0 |] eqn:He0;
      [| apply nth_error_None in He0; lia].
    pose proof (Hinc i d0 d Hd0 Hd) as Hlt.
    assert (Hle : leb d d = true) by (apply R_leb_le; lra).
    assert (E : eqb d d0 = false) by (apply R_eqb_neq; lra).
    assert (Hskip : forall j, (1 <= j < S i)%nat ->
              exists dj, nth_error dists j = Some dj /\ leb d dj = false).
    { intros j Hj.
      destruct (nth_error dists j) as [dj |] eqn:Hdj;
        [| apply nth_error_None in Hdj; lia].
      exists dj. split; [reflexivity |]. apply R_leb_gt.
      apply (increasing_lt dists Hinc (S i) j); auto. lia. }
    assert (Hd0' : nth_error dists (S i - 1) = Some d0)
      by (rewrite Nat.sub_succ, Nat.sub_0_r; exact Hd0).
    assert (He0' : nth_error eles (S i - 1) = Some e0)
      by (rewrite Nat.sub_succ, Nat.sub_0_r; exact He0).
    rewrite (interpolate_elevation_first R_sub_zero d dists eles (S i)
               d0 d e0 e ltac:(lia) Hskip Hd0' Hd He0' He Hle).
    rewrite E. cbn. f_equal. field. lra.
Qed.

Lemma interpolate_elevation_at_sample_witness :
  interpolate_elevation 111 [0; 111; 222] [0; 10; 5] = Ok 10.
Proof.
  apply (interpolate_elevation_at_sample [0; 111; 222] [0; 10; 5] 1 111 10).
  - reflexivity.
  - intros [| [| [| i]]] a b Ha Hb; cbn in Ha, Hb;
      try discriminate; injection Ha as <-; injection Hb as <-; lra.
  - reflexivity.
  - reflexivity.
Defined.

(** C3 fails where a distance repeats: two fixes at one place give the
    series [[0; 0]], which starts at 0 and does not decrease, and the
    elevation interpolated at [dists[0]] is that of sample 1. *)
Lemma interpolate_elevation_repeated_distance :
  compute_distances [(0, 0, 5); (0, 0, 7)] = Ok [0; 0] /\
  map (fun pt : trkpt => snd pt) [(0, 0, 5); (0, 0, 7)] = [5; 7] /\
  nondecreasing [0; 0] /\
  nth_error [0; 0] 0 = Some 0 /\
  nth_error [5; 7] 0 = Some 5 /\
  interpolate_elevation 0 [0; 0] [5; 7] = Ok 7 /\
  7 <> 5.
Proof.
  repeat split.
  - unfold compute_distances.
    cbn [length Nat.sub compute_distances_loop py_index nth_error bind].
    rewrite haversine_returns. cbn [bind py_last app last of_int add R_num].
    rewrite great_circle_same, Rplus_0_r. reflexivity.
  - intros [| [| i]] a b Ha Hb; cbn in Ha, Hb; try discriminate.
    injection Ha as <-. injection Hb as <-. lra.
  - rewrite (interpolate_elevation_first R_sub_zero 0 [0; 0] [5; 7] 1 0 0 5 7
               (le_n 1) ltac:(intros j Hj; lia) eq_refl eq_refl eq_refl eq_refl
               ltac:(apply R_leb_le; lra)).
    assert (E : eqb 0 0 = true) by (apply R_eqb_eq; reflexivity).
    rewrite E. reflexivity.
  - lra.
Qed.

End InterpolatorExact.

(** The same two queries, run on the rationals. *)
Example interpolate_elevation_runs :
  (exists v,
     interpolate_elevation (A:=Q) 111 [0; 111; 222] [0; 10; 5] = Ok v /\
     (v == 10)%Q) /\
  interpolate_elevation (A:=Q) 0 [0; 0] [5; 7] = Ok 7%Q.
Proof.
  split; [eexists; split; [vm_compute; reflexivity | reflexivity] |].
  reflexivity.
Qed.

(** ** Slope segmenter *)

Section Segmenter.

Context {A : Type} {num : PyNum A} {round : PyRound A}.

Hypothesis sub_zero :
  forall x y : A, eqb (sub x y) (of_int 0) = true -> eqb x y = true.

(** The slope of a segment divides only by a length that is not zero. *)
Lemma segment_slope_no_zero_division (start_e end_e seg_dist : A) :
  segment_slope start_e end_e seg_dist <> Raise ZeroDivisionError.
Proof.
  unfold segment_slope, truediv.
  destruct (eqb seg_dist (of_int 0)); cbn [negb]; discriminate.
Qed.

(** The slope of a segment whose length is not zero. *)
Lemma segment_slope_nonzero (start_e end_e seg_dist : A) :
  eqb seg_dist (of_int 0) = false ->
  segment_slope start_e end_e seg_dist
  = Ok (quot (sub end_e start_e) seg_dist).
Proof.
  intros E. unfold segment_slope, truediv. rewrite E. reflexivity.
Qed.

(** The loop over the boundaries raises nothing but [IndexError]. *)
Lemma segment_loop_no_zero_division (dists eles boundaries : list A) :
  forall n i,
    segment_loop dists eles boundaries i n <> Raise ZeroDivisionError.
Proof.
  induction n as [| n IH]; intros i; cbn [segment_loop]; [discriminate |].
  pose proof (py_index_not_zero_division boundaries i) as Hs.
  pose proof (py_index_not_zero_division boundaries (i + 1)) as He.
  destruct (py_index boundaries i) as [s | x]; cbn [bind]; [| congruence].
  destruct (py_index boundaries (i + 1)) as [e | x]; cbn [bind];
    [| congruence].
  pose proof (interpolate_loop_no_zero_division sub_zero s dists eles
                (length dists - 1) 1) as Hse.
  pose proof (interpolate_loop_no_zero_division sub_zero e dists eles
                (length dists - 1) 1) as Hee.
  unfold interpolate_elevation.
  destruct (interpolate_loop s dists eles 1 (length dists - 1)) as [se | x];
    cbn [bind]; [| congruence].
  destruct (interpolate_loop e dists eles 1 (length dists - 1)) as [ee | x];
    cbn [bind]; [| congruence].
  pose proof (segment_slope_no_zero_division se ee (sub e s)) as Hsl.
  destruct (segment_slope se ee (sub e s)) as [sl | x]; cbn [bind];
    [| congruence].
  specialize (IH (S i)).
  destruct (segment_loop dists eles boundaries (S i) n) as [segs | x];
    cbn [bind]; [discriminate | congruence].
Qed.

Lemma py_range_not_zero_division (start stop step : Z) :
  py_range start stop step <> Raise ZeroDivisionError.
Proof. unfold py_range. destruct (step =? 0)%Z; discriminate. Qed.

(** With a segment length that is not zero, neither [total // segment]
    nor anything after it divides by zero. *)
Lemma segment_slopes_no_zero_division (dists eles : list A) (segment : A) :
  eqb segment (of_int 0) = false ->
  segment_slopes dists eles segment <> Raise ZeroDivisionError.
Proof.
  intros Hseg. unfold segment_slopes, floordiv. rewrite Hseg.
  pose proof (py_last_not_zero_division dists) as Ht.
  destruct (py_last dists) as [total | x]; cbn [bind]; [| congruence].
  match goal with |- context [py_range ?a ?b ?c] =>
    pose proof (py_range_not_zero_division a b c) as Hr;
    destruct (py_range a b c) as [r | x]; cbn [bind]; [| congruence]
  end.
  pose proof (py_last_not_zero_division (map of_int r)) as Hb.
  destruct (py_last (map of_int r)) as [b | x]; cbn [bind]; [| congruence].
  apply segment_loop_no_zero_division.
Qed.

(** The loop over boundaries [b i, b (i + 1), ...] that are all there and
    one apart from the next by a non-zero step. *)
Lemma segment_loop_segments (dists eles boundaries : list A) (b : nat -> A) :
  length eles = length dists -> dists <> [] ->
  forall n i,
    (forall j, (i <= j <= i + n)%nat -> nth_error boundaries j = Some (b j)) ->
    (forall j, (i <= j < i + n)%nat ->
               eqb (sub (b (S j)) (b j)) (of_int 0) = false) ->
    exists segments,
      segment_loop dists eles boundaries i n = Ok segments /\
      length segments = n /\
      forall j, (j < n)%nat ->
        exists start_e end_e,
          interpolate_elevation (b (i + j)%nat) dists eles = Ok start_e /\
          interpolate_elevation (b (S (i + j))) dists eles = Ok end_e /\
          nth_error segments j
          = Some (b (i + j)%nat, b (S (i + j)),
                  quot (sub end_e start_e) (sub (b (S (i + j))) (b (i + j)%nat))).
Proof.
  intros Hlen Hne. induction n as [| n IH]; intros i Hb Hstep.
  - exists []. repeat split; auto. intros j Hj. lia.
  - cbn [segment_loop].
    rewrite (py_index_Some _ _ _ (Hb i ltac:(lia))). cbn [bind].
    replace (i + 1)%nat with (S i) by lia.
    rewrite (py_index_Some _ _ _ (Hb (S i) ltac:(lia))). cbn [bind].
    destruct (interpolate_elevation_returns sub_zero (b i) dists eles Hlen Hne)
      as [se Hse].
    destruct (interpolate_elevation_returns sub_zero (b (S i)) dists eles Hlen Hne)
      as [ee Hee].
    rewrite Hse, Hee. cbn [bind].
    rewrite segment_slope_nonzero by (apply Hstep; lia). cbn [bind].
    destruct (IH (S i)) as [segs [Hsegs [Hn Hall]]].
    { intros j Hj. apply Hb. lia. }
    { intros j Hj. apply Hstep. lia. }
    rewrite Hsegs. cbn [bind]. eexists. split; [reflexivity |].
    split; [cbn; lia |].
    intros [| j] Hj.
    + exists se, ee. rewrite Nat.add_0_r. auto.
    + destruct (Hall j ltac:(lia)) as [se' [ee' [H1 [H2 H3]]]].
      exists se', ee'. replace (i + S j)%nat with (S i + j)%nat by lia. auto.
Qed.

End Segmenter.

Section SegmenterExact.

Local Open Scope R_scope.

(** [math.floor] and [int()] give an integer back. *)
Lemma Int_part_IZR (z : Z) : Int_part (IZR z) = z.
Proof. symmetry. apply Int_part_spec. lra. Qed.

Lemma py_int_IZR (z : Z) : py_int (IZR z) = z.
Proof.
  unfold py_int. cbn. destruct (Rle_dec 0 (IZR z)).
  - apply Int_part_IZR.
  - rewrite <- opp_IZR, Int_part_IZR. lia.
Qed.

(** [total // 100.0]. *)
Lemma floordiv_default (total : R) :
  floordiv total default_segment = Ok (IZR (Int_part (total / 100))).
Proof.
  unfold floordiv, default_segment.
  assert (E : @eqb R _ (of_int 100) (of_int 0) = false)
    by (apply R_eqb_neq; cbn; lra).
  rewrite E. reflexivity.
Qed.

(** Consecutive boundaries are 100 apart. *)
Lemma boundary_step (j : nat) : boundary (S j) - boundary j = 100.
Proof.
  unfold boundary.
  rewrite Nat2Z.inj_succ, !Z.add_0_l, !mult_IZR, succ_IZR. lra.
Qed.

(** The boundaries of the default segmentation of a series that ends at
    [total >= 0]: the multiples of 100 up to the first one beyond [total],
    which the test [boundaries[-1] < total] then finds not below it. *)
Lemma segment_slopes_default_boundaries (dists eles : list R) (total : R) :
  py_last dists = Ok total -> 0 <= total ->
  let k := Z.to_nat (Int_part (total / 100)) in
  total < boundary (S k) /\
  segment_slopes dists eles default_segment
  = segment_loop dists eles (map boundary (seq 0 (S (S k)))) 0 (S k).
Proof.
  intros Htotal Hpos k.
  pose proof (base_Int_part (total / 100)) as [Hlo Hhi].
  set (K := Int_part (total / 100)) in *.
  assert (HK : (0 <= K)%Z).
  { assert (H : IZR (-1) < IZR K) by lra. apply lt_IZR in H. lia. }
  assert (HkK : Z.of_nat k = K) by (unfold k; lia).
  assert (Hover : total < boundary (S k)).
  { unfold boundary. rewrite Nat2Z.inj_succ, HkK.
    rewrite Z.add_0_l, mult_IZR, succ_IZR.
    assert (total = total / 100 * 100) by field. lra. }
  split; [exact Hover |].
  unfold segment_slopes. rewrite Htotal. cbn [bind].
  rewrite floordiv_default. cbn [bind]. fold K.
  unfold default_segment. change (@of_int R _ 100) with (IZR 100).
  rewrite !py_int_IZR.
  unfold py_range. cbn [Z.eqb].
  assert (Hrl : range_len 0 (K * 100 + 100 + 1) 100 = (K + 2)%Z).
  { unfold range_len. cbn [Z.ltb Z.compare].
    destruct (Z.ltb_spec 0 (K * 100 + 100 + 1)); [| lia].
    replace (K * 100 + 100 + 1 - 0 - 1)%Z with ((K + 1) * 100)%Z by ring.
    rewrite Z.div_mul by lia. ring. }
  rewrite Hrl. replace (Z.to_nat (K + 2)) with (S (S k)) by lia.
  cbn [bind]. rewrite map_map.
  change (fun x : nat => of_int (0 + Z.of_nat x * 100)%Z) with boundary.
  rewrite py_last_map_seq. cbn [bind].
  assert (Elt : ltb (boundary (S k)) total = false) by (apply R_ltb_ge; lra).
  rewrite Elt, length_map, length_seq.
  replace (S (S k) - 1)%nat with (S k) by lia. reflexivity.
Qed.

(** What [segment_slopes] returns with the default segment on a series
    that ends at [total >= 0]: [floor(total / 100) + 1] segments of length
    100, from 0 on, each with the slope between its interpolated ends; the
    last boundary lies beyond [total]. *)
Theorem segment_slopes_default (dists eles : list R) (total : R) :
  length eles = length dists -> py_last dists = Ok total -> 0 <= total ->
  let k := Z.to_nat (Int_part (total / 100)) in
  exists segments,
    segment_slopes dists eles default_segment = Ok segments /\
    length segments = S k /\
    total < boundary (S k) /\
    forall j, (j < S k)%nat ->
      exists start_e end_e,
        interpolate_elevation (boundary j) dists eles = Ok start_e /\
        interpolate_elevation (boundary (S j)) dists eles = Ok end_e /\
        nth_error segments j
        = Some (boundary j, boundary (S j), (end_e - start_e) / 100).
Proof.
  intros Hlen Htotal Hpos k.
  assert (Hne : dists <> []) by (intros ->; discriminate).
  destruct (segment_slopes_default_boundaries dists eles total Htotal Hpos)
    as [Hover ->]. fold k.
  destruct (segment_loop_segments R_sub_zero dists eles
              (map boundary (seq 0 (S (S k)))) boundary Hlen Hne (S k) 0)
    as [segments [Hsegs [Hn Hall]]].
  - intros j Hj. apply nth_error_map_seq. lia.
  - intros j Hj. apply R_eqb_neq. cbn [sub of_int R_num].
    rewrite boundary_step. lra.
  - exists segments. repeat split; auto.
    intros j Hj. destruct (Hall j Hj) as [se [ee [H1 [H2 H3]]]].
    cbn [Nat.add] in *. exists se, ee. repeat split; auto.
    rewrite H3. do 3 f_equal. cbn [quot sub R_num]. rewrite boundary_step.
    reflexivity.
Qed.

Lemma segment_slopes_default_witness :
  exists segments,
    segment_slopes [0; 222] [0; 5] default_segment = Ok segments /\
    length segments = S (Z.to_nat (Int_part (222 / 100))) /\
    222 < boundary (S (Z.to_nat (Int_part (222 / 100)))) /\
    forall j, (j < S (Z.to_nat (Int_part (222 / 100))))%nat ->
      exists start_e end_e,
        interpolate_elevation (boundary j) [0; 222] [0; 5] = Ok start_e /\
        interpolate_elevation (boundary (S j)) [0; 222] [0; 5] = Ok end_e /\
        nth_error segments j
        = Some (boundary j, boundary (S j), (end_e - start_e) / 100).
Proof.
  apply (segment_slopes_default [0; 222] [0; 5] 222).
  - reflexivity.
  - reflexivity.
  - lra.
Defined.

(** C9: neither function raises [ZeroDivisionError].  [interpolate_elevation]
    returns a value on every series that is not empty with one elevation
    per distance, and returns [eles[i]] itself when the interval it stops
    at has [dists[i] == dists[i-1]]; the slope of a segment of length zero
    is 0. *)
Theorem no_zero_division :
  (forall (distance : R) (dists eles : list R),
     interpolate_elevation distance dists eles <> Raise ZeroDivisionError) /\
  (forall (distance : R) (dists eles : list R),
     dists <> [] -> length eles = length dists ->
     exists v, interpolate_elevation distance dists eles = Ok v) /\
  (forall (distance : R) (dists eles : list R) (i : nat) (d e0 e1 : R),
     (1 <= i)%nat ->
     (forall j, (1 <= j < i)%nat ->
                exists dj, nth_error dists j = Some dj /\ dj < distance) ->
     nth_error dists (i - 1) = Some d -> nth_error dists i = Some d ->
     nth_error eles (i - 1) = Some e0 -> nth_error eles i = Some e1 ->
     distance <= d ->
     interpolate_elevation distance dists eles = Ok e1) /\
  (forall dists eles : list R,
     segment_slopes dists eles default_segment <> Raise ZeroDivisionError) /\
  (forall start_e end_e : R, segment_slope start_e end_e 0 = Ok 0).
Proof.
  split; [| split; [| split; [| split]]].
  - intros distance dists eles.
    apply (interpolate_loop_no_zero_division R_sub_zero).
  - intros distance dists eles Hne Hlen.
    apply (interpolate_elevation_returns R_sub_zero); assumption.
  - intros distance dists eles i d e0 e1 Hi Hskip Hd0 Hd1 He0 He1 Hle.
    rewrite (interpolate_elevation_first R_sub_zero distance dists eles i
               d d e0 e1 Hi); try assumption.
    + assert (E : eqb d d = true) by (apply R_eqb_eq; reflexivity).
      rewrite E. reflexivity.
    + intros j Hj. destruct (Hskip j Hj) as [dj [Hdj Hlt]].
      exists dj. split; [exact Hdj |]. apply R_leb_gt. exact Hlt.
    + apply R_leb_le. exact Hle.
  - intros dists eles.
    apply (segment_slopes_no_zero_division R_sub_zero).
    apply R_eqb_neq. cbn. lra.
  - intros start_e end_e. unfold segment_slope.
    assert (E : @eqb R _ 0 (of_int 0) = true) by (apply R_eqb_eq; reflexivity).
    rewrite E. reflexivity.
Qed.

Lemma no_zero_division_witness :
  interpolate_elevation 0 [0; 0] [5; 7] = Ok 7.
Proof.
  apply (proj1 (proj2 (proj2 no_zero_division)) 0 [0; 0] [5; 7] 1%nat 0 5 7).
  - lia.
  - intros j Hj. lia.
  - reflexivity.
  - reflexivity.
  - reflexivity.
  - reflexivity.
  - lra.
Defined.

End SegmenterExact.

(** C1 fails on the series [[0.0, 222.0]] with elevations [[0.0, 5.0]]:
    the boundaries are 0, 100, 200 and 300, the test
    [boundaries[-1] < total] is false and [total] is never appended, so the
    last segment ends at 300 and not at 222. *)
Theorem segment_slopes_overshoot :
  exists segments,
    segment_slopes (A:=Q) [0; 222] [0; 5] default_segment = Ok segments /\
    map (fun s => (seg_start s, seg_end s)) segments
    = [(0, 100); (100, 200); (200, 300)] /\
    py_last (A:=Q) [0; 222] = Ok 222 /\
    ~ (300 == 222).
Proof.
  eexists. split; [vm_compute; reflexivity |].
  split; [reflexivity |]. split; [reflexivity | discriminate].
Qed.

(** C2 fails on the series [[0.0, 200.0]] with elevations [[0.0, 10.0]]:
    the total is twice the segment length, [ceil(200 / 100)] is 2, and
    three segments are returned, the last one from 200 to 300. *)
Theorem segment_slopes_exact_multiple :
  exists segments,
    segment_slopes (A:=Q) [0; 200] [0; 10] default_segment = Ok segments /\
    length segments = 3%nat /\
    map (fun s => (seg_start s, seg_end s)) segments
    = [(0, 100); (100, 200); (200, 300)] /\
    Qceiling (200 / 100) = 2%Z.
Proof.
  eexists. split; [vm_compute; reflexivity |].
  split; [reflexivity |]. split; reflexivity.
Qed.

(** ** Slope classifier *)

(** The classes of [slope_to_color] over exact slopes, read off the
    cascade of strict comparisons. *)
Lemma slope_to_color_cases (slope : R) :
  let pct := (slope * 100)%R in
  (pct < 0 /\ slope_to_color slope = blue)%R \/
  (0 <= pct < 3 /\ slope_to_color slope = darkgreen)%R \/
  (3 <= pct < 6 /\ slope_to_color slope = limegreen)%R \/
  (6 <= pct < 10 /\ slope_to_color slope = yellow)%R \/
  (10 <= pct < 15 /\ slope_to_color slope = orange)%R \/
  (15 <= pct /\ slope_to_color slope = red)%R.
Proof.
  intros pct. unfold slope_to_color.
  change (mul slope (of_int 100)) with pct.
  destruct (ltb pct (of_int 0)) eqn:H0;
  [| destruct (ltb pct (of_int 3)) eqn:H3;
  [| destruct (ltb pct (of_int 6)) eqn:H6;
  [| destruct (ltb pct (of_int 10)) eqn:H10;
  [| destruct (ltb pct (of_int 15)) eqn:H15 ]]]];
  R_compare; cbn in *; intuition lra.
Qed.

(** In binary64 a NaN is the one number that differs from itself. *)
Lemma is_nan_Prim2SF (x : float) :
  PrimFloat.is_nan x = true -> Prim2SF x = S754_nan.
Proof.
  unfold PrimFloat.is_nan. rewrite negb_true_iff, FloatAxioms.eqb_spec.
  unfold SFeqb. destruct (Prim2SF x) as [s | s | | s m e]; cbn.
  - discriminate.
  - destruct s; discriminate.
  - reflexivity.
  - destruct s; rewrite Z.compare_refl, Pos.compare_cont_refl; discriminate.
Qed.

(** The order of binary64 has no cycle through a strict step. *)
Lemma SFcompare_cycle (x y z : spec_float) :
  SFltb x y = true -> SFleb y z = true -> SFleb z x = true -> False.
Proof.
  unfold SFltb, SFleb.
  destruct x as [sx | sx | | sx mx ex], y as [sy | sy | | sy my ey],
    z as [sz | sz | | sz mz ez]; cbn;
    try discriminate;
    try (destruct sx; discriminate);
    try (destruct sy; discriminate);
    try (destruct sz; discriminate);
    try (destruct sx, sy; discriminate);
    try (destruct sx, sz; discriminate);
    try (destruct sy, sz; discriminate);
    try (destruct sx, sy, sz; discriminate).
  destruct sx, sy, sz; try discriminate;
    change (Pos.compare_cont Eq) with Pos.compare;
    destruct (Z.compare_spec ex ey); try discriminate;
    destruct (Z.compare_spec ey ez); try discriminate;
    destruct (Z.compare_spec ez ex); try discriminate; try lia;
    subst;
    destruct (Pos.compare_spec mx my); try discriminate;
    destruct (Pos.compare_spec my mz); try discriminate;
    destruct (Pos.compare_spec mz mx); try discriminate; cbn; try discriminate; lia.
Qed.

(** Two binary64 numbers are ordered one way or the other, unless one is
    a NaN. *)
Lemma SFcompare_total (x c : spec_float) :
  SFltb x c = false -> SFleb c c = true ->
  SFleb c x = true \/ x = S754_nan.
Proof.
  unfold SFltb, SFleb.
  destruct x as [sx | sx | | sx mx ex], c as [sc | sc | | sc mc ec]; cbn;
    auto; try discriminate;
    try (destruct sx; auto; discriminate);
    try (destruct sc; auto; discriminate);
    try (destruct sx, sc; auto; discriminate).
  change (Pos.compare_cont Eq) with Pos.compare.
  rewrite (Z.compare_antisym ex ec), (Pos.compare_antisym mx mc).
  destruct sx, sc; auto; try discriminate;
    destruct (ex ?= ec)%Z; cbn; auto; try discriminate;
    destruct (mx ?= mc)%positive; cbn; auto; discriminate.
Qed.

(** A NaN, read back from its specification. *)
Lemma Prim2SF_is_nan (x : float) :
  Prim2SF x = S754_nan -> PrimFloat.is_nan x = true.
Proof.
  intros H. unfold PrimFloat.is_nan. rewrite FloatAxioms.eqb_spec, H.
  reflexivity.
Qed.

(** Nothing is at once below [c1] and at or above a [c2] that is not below
    [c1]. *)
Lemma float_not_below (x c1 c2 : float) :
  leb c1 c2 = true -> leb c2 x = true -> ltb x c1 = false.
Proof.
  cbn. rewrite !leb_spec, ltb_spec. intros H12 H2x.
  destruct (SFltb (Prim2SF x) (Prim2SF c1)) eqn:E; [| reflexivity].
  destruct (SFcompare_cycle _ _ _ E H12 H2x).
Qed.

(** A number that is not below [c] is at or above it, or is a NaN. *)
Lemma float_not_below_inv (x c : float) :
  leb c c = true -> ltb x c = false ->
  leb c x = true \/ PrimFloat.is_nan x = true.
Proof.
  cbn. rewrite !leb_spec, ltb_spec. intros Hc Hx.
  destruct (SFcompare_total _ _ Hx Hc) as [H | H]; [left; exact H |].
  right. apply Prim2SF_is_nan. exact H.
Qed.

(** A NaN is neither below nor at or above any number. *)
Lemma float_nan_not_below (x c : float) :
  PrimFloat.is_nan x = true -> ltb x c = false.
Proof.
  intros H. cbn. rewrite ltb_spec, (is_nan_Prim2SF _ H). reflexivity.
Qed.

Lemma float_nan_not_above (x c : float) :
  PrimFloat.is_nan x = true -> leb c x = false.
Proof.
  intros H. cbn. rewrite leb_spec, (is_nan_Prim2SF _ H).
  unfold SFleb. destruct (Prim2SF c); reflexivity.
Qed.

Lemma float_below_not_nan (x c : float) :
  ltb x c = true -> PrimFloat.is_nan x = false.
Proof.
  intros H. destruct (PrimFloat.is_nan x) eqn:E; [| reflexivity].
  rewrite (float_nan_not_below x c E) in H. discriminate.
Qed.

(** Closes a goal whose hypotheses put a binary64 number at or above one
    threshold, or make it a NaN, and below a threshold that is not
    larger. *)
Ltac float_order :=
  match goal with
  | Ha : leb ?a ?x = true, E : ltb ?x ?c = true |- _ =>
      let F := fresh in
      assert (F : ltb x c = false)
        by (apply (float_not_below x c a); [reflexivity | exact Ha]);
      congruence
  | Hn : PrimFloat.is_nan ?x = true, E : ltb ?x ?c = true |- _ =>
      let F := fresh in
      assert (F : ltb x c = false) by (apply float_nan_not_below; exact Hn);
      congruence
  end.

(** A number below [b] and not below [a] is at or above [a]. *)
Lemma float_between (x a b : float) :
  leb a a = true -> ltb x a = false -> ltb x b = true -> leb a x = true.
Proof.
  intros Ha Hxa Hxb.
  destruct (float_not_below_inv x a Ha Hxa) as [H | H]; [exact H |].
  rewrite (float_below_not_nan x b Hxb) in H. discriminate.
Qed.

(** Puts a binary64 number in its class from the comparisons the cascade
    has made. *)
Ltac float_in_class :=
  match goal with
  | |- leb ?a ?x = true /\ _ =>
      split; [| solve [reflexivity | assumption]];
      match goal with
      | E : ltb x ?b = true |- _ =>
          apply (float_between x a b); [reflexivity | assumption | exact E]
      end
  | |- leb ?a ?x = true \/ _ =>
      apply (float_not_below_inv x a); [reflexivity | assumption]
  | |- true = true => reflexivity
  end.

(** The classes of [slope_to_color] over binary64 slopes: the class of
    the rounded product [slope * 100] in binary64 order, a NaN being
    red. *)
Lemma slope_to_color_binary64 (slope : float) :
  let pct := mul slope (of_int 100) in
  (slope_to_color slope = blue <-> ltb pct (of_int 0) = true) /\
  (slope_to_color slope = darkgreen <->
     leb (of_int 0) pct = true /\ ltb pct (of_int 3) = true) /\
  (slope_to_color slope = limegreen <->
     leb (of_int 3) pct = true /\ ltb pct (of_int 6) = true) /\
  (slope_to_color slope = yellow <->
     leb (of_int 6) pct = true /\ ltb pct (of_int 10) = true) /\
  (slope_to_color slope = orange <->
     leb (of_int 10) pct = true /\ ltb pct (of_int 15) = true) /\
  (slope_to_color slope = red <->
     leb (of_int 15) pct = true \/ PrimFloat.is_nan pct = true).
Proof.
  intros pct. unfold slope_to_color. change (mul slope (of_int 100)) with pct.
  generalize pct. clear pct slope. intros pct.
  destruct (ltb pct (of_int 0)) eqn:E0;
  [| destruct (ltb pct (of_int 3)) eqn:E3;
  [| destruct (ltb pct (of_int 6)) eqn:E6;
  [| destruct (ltb pct (of_int 10)) eqn:E10;
  [| destruct (ltb pct (of_int 15)) eqn:E15 ]]]];
  repeat match goal with
         | |- _ /\ _ => split
         | |- _ <-> _ => split
         end;
  intros Hyp;
  first [ congruence
        | float_in_class
        | destruct Hyp as [H1 H2]; first [congruence | float_order]
        | destruct Hyp as [H1 | H1]; float_order ].
Qed.

(** C5: the colour is the class of the percent grade [slope * 100] in the
    table of strict thresholds (below 0 blue, [0, 3) darkgreen, [3, 6)
    limegreen, [6, 10) yellow, [10, 15) orange, 15 and above red), over
    exact slopes and over binary64 slopes (where the product is rounded
    and a NaN grade is red); the grades -0.1, 0, 2.9, 3, 5.9, 6, 9.9, 10,
    14.9, 15 and 20, as the slopes [n / 1000], fall in the documented
    classes in exact arithmetic and in binary64. *)
Theorem slope_to_color_grades :
  (forall slope : R,
     let pct := (slope * 100)%R in
     (slope_to_color slope = blue <-> pct < 0)%R /\
     (slope_to_color slope = darkgreen <-> 0 <= pct < 3)%R /\
     (slope_to_color slope = limegreen <-> 3 <= pct < 6)%R /\
     (slope_to_color slope = yellow <-> 6 <= pct < 10)%R /\
     (slope_to_color slope = orange <-> 10 <= pct < 15)%R /\
     (slope_to_color slope = red <-> 15 <= pct)%R) /\
  (forall slope : float,
     let pct := mul slope (of_int 100) in
     (slope_to_color slope = blue <-> ltb pct (of_int 0) = true) /\
     (slope_to_color slope = darkgreen <->
        leb (of_int 0) pct = true /\ ltb pct (of_int 3) = true) /\
     (slope_to_color slope = limegreen <->
        leb (of_int 3) pct = true /\ ltb pct (of_int 6) = true) /\
     (slope_to_color slope = yellow <->
        leb (of_int 6) pct = true /\ ltb pct (of_int 10) = true) /\
     (slope_to_color slope = orange <->
        leb (of_int 10) pct = true /\ ltb pct (of_int 15) = true) /\
     (slope_to_color slope = red <->
        leb (of_int 15) pct = true \/ PrimFloat.is_nan pct = true)) /\
  map (fun n : Z => slope_to_color (A:=Q) (quot (of_int n) (of_int 1000)))
      [-1; 0; 29; 30; 59; 60; 99; 100; 149; 150; 200]%Z
  = [blue; darkgreen; darkgreen; limegreen; limegreen; yellow; yellow;
     orange; orange; red; red] /\
  map (fun n : Z => slope_to_color (A:=float) (quot (of_int n) (of_int 1000)))
      [-1; 0; 29; 30; 59; 60; 99; 100; 149; 150; 200]%Z
  = [blue; darkgreen; darkgreen; limegreen; limegreen; yellow; yellow;
     orange; orange; red; red].
Proof.
  split; [| split; [exact slope_to_color_binary64 |
                    split; vm_compute; reflexivity]].
  intros slope pct.
  destruct (slope_to_color_cases slope) as [H|[H|[H|[H|[H|H]]]]];
    fold pct in H; destruct H as [Hp ->];
    repeat split; intros; try discriminate; try lra.
Qed.

(** C10: [slope_to_color] is total on binary64 slopes, and a NaN slope
    fails every threshold comparison and is classified red. *)
Theorem slope_to_color_nan (slope : float) :
  PrimFloat.is_nan slope = true -> slope_to_color slope = red.
Proof.
  intros H. unfold slope_to_color.
  assert (Hpct : PrimFloat.is_nan (mul slope (of_int 100)) = true).
  { apply Prim2SF_is_nan. cbn. rewrite mul_spec, (is_nan_Prim2SF _ H).
    reflexivity. }
  rewrite !(float_nan_not_below _ _ Hpct). reflexivity.
Qed.

Lemma slope_to_color_nan_witness :
  PrimFloat.is_nan PrimFloat.nan = true /\
  slope_to_color PrimFloat.nan = red.
Proof.
  split; [reflexivity | apply (slope_to_color_nan PrimFloat.nan); reflexivity].
Defined.

(** ** Waypoint projector *)

(** The reals are ordered as the scan asks. *)
Lemma R_ordered : ordered (A:=R) (fun _ => True).
Proof.
  split.
  - intros x _. apply R_leb_le. lra.
  - intros x y H. apply R_ltb_lt in H. apply R_leb_le. lra.
  - intros x y z H1 H2. apply R_ltb_lt in H1. apply R_leb_le in H2.
    apply R_ltb_lt. lra.
  - intros x y _ _ H. apply R_ltb_ge in H. apply R_leb_le. exact H.
Qed.

(** A binary64 number that is not a NaN is at or above itself. *)
Lemma float_leb_refl (x : float) :
  PrimFloat.is_nan x = false -> leb x x = true.
Proof.
  intros H. cbn. rewrite leb_spec.
  unfold PrimFloat.is_nan in H. rewrite negb_false_iff, FloatAxioms.eqb_spec in H.
  unfold SFeqb in H. unfold SFleb.
  destruct (SFcompare (Prim2SF x) (Prim2SF x)) as [[| |] |];
    try reflexivity; discriminate.
Qed.

(** A binary64 number that something is at or below is not a NaN. *)
Lemma float_above_not_nan (x c : float) :
  leb c x = true -> PrimFloat.is_nan x = false.
Proof.
  intros H. destruct (PrimFloat.is_nan x) eqn:E; [| reflexivity].
  rewrite (float_nan_not_above x c E) in H. discriminate.
Qed.

(** The binary64 numbers that are not NaN are ordered as the scan asks. *)
Lemma binary64_ordered :
  ordered (A:=float) (fun x => PrimFloat.is_nan x = false).
Proof.
  split.
  - exact float_leb_refl.
  - intros x y. cbn. rewrite ltb_spec, leb_spec. unfold SFltb, SFleb.
    destruct (SFcompare (Prim2SF x) (Prim2SF y)) as [[| |] |];
      try reflexivity; discriminate.
  - intros x y z Hxy Hyz.
    destruct (ltb x z) eqn:E; [reflexivity |].
    pose proof (float_above_not_nan z y Hyz) as Hz.
    pose proof (float_below_not_nan x y Hxy) as Hx.
    destruct (float_not_below_inv x z (float_leb_refl z Hz) E) as [Hzx | Hnan];
      [| congruence].
    cbn in Hxy, Hyz, Hzx. rewrite ltb_spec in Hxy. rewrite leb_spec in Hyz, Hzx.
    destruct (SFcompare_cycle _ _ _ Hxy Hyz Hzx).
  - intros x y Hx Hy E.
    destruct (float_not_below_inv x y (float_leb_refl y Hy) E) as [H | H];
      [exact H | congruence].
Qed.

Section WaypointProjector.

Context {A : Type} {num : PyNum A} {math : PyMath A}.

Variable number : A -> Prop.

Hypothesis order : ordered number.

(** One iteration of the scan keeps what [scanned] says. *)
Lemma scanned_step (lat lon : A) (pre : list (A * A * A)) (pt : A * A * A)
  (min_idx : nat) (min_dist : option A) (d : A) :
  scanned lat lon pre min_idx min_dist ->
  (forall q dq, In q pre -> dist_to lat lon q dq -> number dq) ->
  dist_to lat lon pt d -> number d ->
  if below d min_dist
  then scanned lat lon (pre ++ [pt]) (length pre) (Some d)
  else scanned lat lon (pre ++ [pt]) min_idx min_dist.
Proof.
  intros Hinv Hnum Hd Hnd. destruct min_dist as [m |]; cbn [below].
  - destruct Hinv as [p [Hp [Hm [Hall Hfirst]]]].
    assert (Hlt : (min_idx < length pre)%nat)
      by (apply nth_error_Some; congruence).
    assert (Hnm : number m)
      by (apply (Hnum p m); [apply (nth_error_In _ _ Hp) | exact Hm]).
    destruct (ltb d m) eqn:E.
    + assert (Hbelow : forall j q dq, nth_error pre j = Some q ->
                         dist_to lat lon q dq -> ltb d dq = true).
      { intros j q dq Hq Hdq.
        apply (ord_lt_le_trans number order d m dq E). eauto. }
      exists pt. rewrite nth_error_snoc_last. repeat split; auto.
      * intros j q dq Hq Hdq.
        apply nth_error_snoc_inv in Hq as [[_ Hq] | [_ ->]].
        -- apply (ord_lt_le number order). eauto.
        -- unfold dist_to in Hd, Hdq. assert (dq = d) by congruence. subst dq.
           apply (ord_refl number order). exact Hnd.
      * intros j q dq Hj Hq Hdq. rewrite nth_error_app1 in Hq by lia. eauto.
    + exists p. rewrite nth_error_app1 by lia. repeat split; auto.
      * intros j q dq Hq Hdq.
        apply nth_error_snoc_inv in Hq as [[_ Hq] | [_ ->]]; [eauto |].
        unfold dist_to in Hd, Hdq. assert (dq = d) by congruence. subst dq.
        apply (ord_total number order); assumption.
      * intros j q dq Hj Hq Hdq. rewrite nth_error_app1 in Hq by lia. eauto.
  - destruct Hinv as [-> ->]. exists pt. cbn [app length nth_error].
    repeat split; auto.
    + intros [| j] q dq Hq Hdq; cbn in Hq; [| destruct j; discriminate].
      injection Hq as <-.
      unfold dist_to in Hd, Hdq. assert (dq = d) by congruence. subst dq.
      apply (ord_refl number order). exact Hnd.
    + intros j q dq Hj. lia.
Qed.

(** The scan over points to each of which [haversine] returns a number
    returns, with [scanned] true of all the points. *)
Lemma nearest_loop_scan (lat lon : A) :
  forall rest pre min_idx min_dist,
    scanned lat lon pre min_idx min_dist ->
    (forall q, In q (pre ++ rest) ->
               exists dq, dist_to lat lon q dq /\ number dq) ->
    exists k min_dist',
      nearest_loop lat lon rest (length pre) min_idx min_dist = Ok k /\
      scanned lat lon (pre ++ rest) k min_dist'.
Proof.
  induction rest as [| pt rest IH]; intros pre min_idx min_dist Hinv Hnum.
  - exists min_idx, min_dist. rewrite app_nil_r. auto.
  - destruct (Hnum pt) as [d [Hd Hnd]];
      [apply in_or_app; right; left; reflexivity |].
    assert (Hpre : forall q dq, In q pre -> dist_to lat lon q dq -> number dq).
    { intros q dq Hq Hdq.
      destruct (Hnum q) as [dq' [Hdq' Hn]]; [apply in_or_app; left; exact Hq |].
      unfold dist_to in Hdq, Hdq'. assert (dq = dq') by congruence.
      subst dq'. exact Hn. }
    pose proof (scanned_step lat lon pre pt min_idx min_dist d Hinv Hpre Hd Hnd)
      as Hstep.
    replace (pre ++ pt :: rest) with ((pre ++ [pt]) ++ rest) in *
      by (rewrite <- app_assoc; reflexivity).
    assert (Hlen : S (length pre) = length (pre ++ [pt]))
      by (rewrite length_app; simpl; lia).
    unfold dist_to in Hd.
    destruct pt as [[tlat tlon] e]. cbn [nearest_loop fst snd] in *.
    rewrite Hd. cbn [bind]. rewrite Hlen.
    destruct (below d min_dist); apply IH; assumption.
Qed.

(** On a track that is not empty the scan returns the lowest index of a
    nearest track point. *)
Lemma nearest_loop_first_nearest (lat lon : A) (trkpts : list (A * A * A)) :
  trkpts <> [] ->
  (forall q, In q trkpts -> exists dq, dist_to lat lon q dq /\ number dq) ->
  exists k, nearest_loop lat lon trkpts 0 0 None = Ok k /\
            first_nearest lat lon trkpts k.
Proof.
  intros Hne Hnum.
  destruct (nearest_loop_scan lat lon trkpts [] 0%nat None) as [k [m [Hk Hs]]];
    [split; reflexivity | exact Hnum |].
  exists k. split; [exact Hk |]. cbn [app] in Hs.
  destruct m as [m |]; [| destruct Hs; contradiction].
  destruct Hs as [p [Hp [Hm [Hall Hfirst]]]]. exists p, m. auto.
Qed.

(** Every waypoint gets a position: its name and the distance at the
    lowest index of a nearest track point. *)
Lemma waypoint_positions_project (wpts : list (A * A * string))
  (trkpts : list (A * A * A)) (dists : list A) :
  trkpts <> [] -> length dists = length trkpts ->
  (forall w q, In w wpts -> In q trkpts ->
     exists dq, dist_to (fst (fst w)) (snd (fst w)) q dq /\ number dq) ->
  exists positions,
    waypoint_positions wpts trkpts dists = Ok positions /\
    Forall2 (fun (w : A * A * string) (pos : A * string) =>
               snd pos = snd w /\
               exists i,
                 first_nearest (fst (fst w)) (snd (fst w)) trkpts i /\
                 nth_error dists i = Some (fst pos))
            wpts positions.
Proof.
  intros Hne Hlen.
  induction wpts as [| [[lat lon] name] wpts IH]; intros Hnum.
  - exists []. split; [reflexivity | constructor].
  - destruct IH as [positions [Hpos Hall]].
    { intros w q Hw Hq. apply Hnum; [right; exact Hw | exact Hq]. }
    destruct (nearest_loop_first_nearest lat lon trkpts Hne)
      as [k [Hk Hnear]].
    { intros q Hq. apply (Hnum (lat, lon, name) q); [left; reflexivity | exact Hq]. }
    assert (Hlt : (k < length dists)%nat).
    { destruct Hnear as [p [d [Hp _]]]. rewrite Hlen. apply nth_error_Some.
      congruence. }
    destruct (py_index_lt dists k Hlt) as [d [Hd Hnth]].
    exists ((d, name) :: positions). cbn [waypoint_positions].
    rewrite Hk. cbn [bind]. rewrite Hd. cbn [bind]. rewrite Hpos.
    cbn [bind]. split; [reflexivity |]. constructor; [| exact Hall].
    cbn [fst snd]. split; [reflexivity |]. exists k. auto.
Qed.

End WaypointProjector.

(** On a track that is not empty, with one distance per track point, and
    when [haversine] returns a number from every waypoint to every track
    point, [waypoint_positions] returns one position per waypoint, in the
    order of the waypoints and under the waypoint's name, at the distance
    of the lowest index among the track points nearest to it, by the
    distances [haversine] returns and the code's own comparisons. *)
Theorem waypoint_positions_first_nearest {A : Type} {num : PyNum A}
  {math : PyMath A} (number : A -> Prop) (wpts : list (A * A * string))
  (trkpts : list (A * A * A)) (dists : list A) :
  ordered number ->
  trkpts <> [] -> length dists = length trkpts ->
  (forall w q, In w wpts -> In q trkpts ->
     exists dq, dist_to (fst (fst w)) (snd (fst w)) q dq /\ number dq) ->
  exists positions,
    waypoint_positions wpts trkpts dists = Ok positions /\
    Forall2 (fun (w : A * A * string) (pos : A * string) =>
               snd pos = snd w /\
               exists i,
                 first_nearest (fst (fst w)) (snd (fst w)) trkpts i /\
                 nth_error dists i = Some (fst pos))
            wpts positions.
Proof.
  intros order. exact (waypoint_positions_project number order wpts trkpts dists).
Qed.

(** The same in binary64, the arithmetic of CPython, whatever the C
    library's [math] functions return, as long as no distance is a NaN. *)
Corollary waypoint_positions_binary64 {math : PyMath float}
  (wpts : list (float * float * string))
  (trkpts : list (float * float * float)) (dists : list float) :
  trkpts <> [] -> length dists = length trkpts ->
  (forall w q, In w wpts -> In q trkpts ->
     exists dq, dist_to (fst (fst w)) (snd (fst w)) q dq /\
                PrimFloat.is_nan dq = false) ->
  exists positions,
    waypoint_positions wpts trkpts dists = Ok positions /\
    Forall2 (fun (w : float * float * string) (pos : float * string) =>
               snd pos = snd w /\
               exists i,
                 first_nearest (fst (fst w)) (snd (fst w)) trkpts i /\
                 nth_error dists i = Some (fst pos))
            wpts positions.
Proof.
  exact (waypoint_positions_project (fun x => PrimFloat.is_nan x = false)
           binary64_ordered wpts trkpts dists).
Qed.

Lemma waypoint_positions_first_nearest_witness :
  exists positions,
    waypoint_positions [(0%R, 1%R, "hut"%string)]
                       [(0%R, 0%R, 0%R); (0%R, 1%R, 10%R); (0%R, 2%R, 5%R)]
                       [0%R; 111%R; 222%R]
    = Ok positions /\
    Forall2 (fun (w : R * R * string) (pos : R * string) =>
               snd pos = snd w /\
               exists i,
                 first_nearest (fst (fst w)) (snd (fst w))
                   [(0%R, 0%R, 0%R); (0%R, 1%R, 10%R); (0%R, 2%R, 5%R)] i /\
                 nth_error [0%R; 111%R; 222%R] i = Some (fst pos))
            [(0%R, 1%R, "hut"%string)] positions.
Proof.
  apply (waypoint_positions_first_nearest (fun _ : R => True)
           [(0%R, 1%R, "hut"%string)]
           [(0%R, 0%R, 0%R); (0%R, 1%R, 10%R); (0%R, 2%R, 5%R)]
           [0%R; 111%R; 222%R]).
  - exact R_ordered.
  - discriminate.
  - reflexivity.
  - intros w q _ _. eexists. split; [apply haversine_returns | exact I].
Defined.

(** ** Plotting and the command line *)

Section CommandLine.

Local Open Scope R_scope.

(** A series that does not decrease from each index to the next does not
    decrease from each index to any later one. *)
Lemma nondecreasing_le (l : list R) :
  nondecreasing l ->
  forall j i a b, (i <= j)%nat ->
    nth_error l i = Some a -> nth_error l j = Some b -> a <= b.
Proof.
  intros Hs. induction j as [| j IH]; intros i a b Hij Ha Hb.
  - replace i with 0%nat in Ha by lia. assert (a = b) by congruence. lra.
  - destruct (Nat.eq_dec i (S j)) as [-> | Hne].
    + assert (a = b) by congruence. lra.
    + assert (Hj : (j < length l)%nat).
      { assert (S j < length l)%nat by (apply nth_error_Some; congruence).
        lia. }
      destruct (nth_error l j) as [c |] eqn:Hc;
        [| apply nth_error_None in Hc; lia].
      pose proof (Hs j c b Hc Hb).
      pose proof (IH i a c ltac:(lia) Ha eq_refl). lra.
Qed.

(** With no elevation to interpolate, the first segment raises. *)
Lemma segment_slopes_no_elevation :
  segment_slopes [0] [] default_segment = Raise IndexError.
Proof.
  destruct (segment_slopes_default_boundaries [0] [] 0 eq_refl (Rle_refl 0))
    as [_ ->].
  replace (0 / 100) with (IZR 0) by (cbn; field).
  rewrite Int_part_IZR. reflexivity.
Qed.

(** C8: on an empty track [main] prints its message and returns: nothing
    is raised, and no plotting call is made before or after the message.
    The guard is what keeps the run clean: [plot_profile] itself raises
    [IndexError] on the empty track, before its first plotting call. *)
Theorem main_empty_track (wpts : list wpt) :
  main ([], wpts) = ([EvPrint "No track points found."], Ok tt) /\
  plot_profile [] wpts = ([], Raise IndexError).
Proof.
  split; [reflexivity |].
  unfold plot_profile.
  cbn [compute_distances compute_distances_loop length Nat.sub lift io_bind
       map of_int R_num].
  rewrite segment_slopes_no_elevation. reflexivity.
Qed.

End CommandLine.

(** ** The shape of the interpolation *)

Section InterpolatorShape.

Local Open Scope R_scope.

(** The loop from index [i] on either stops at some index or passes them
    all and returns the last elevation. *)
Lemma interpolate_loop_cases (q : R) (dists eles : list R) :
  length eles = length dists ->
  forall n i, (1 <= i)%nat -> (i + n = length dists)%nat ->
    (forall j dj, (1 <= j < i)%nat -> nth_error dists j = Some dj -> dj < q) ->
    (exists k d0 d1 e0 e1,
        stops_at q dists eles k d0 d1 e0 e1 /\
        interpolate_loop q dists eles i n
        = if eqb d1 d0 then Ok e1
          else Ok (e0 + (q - d0) / (d1 - d0) * (e1 - e0))) \/
    (passes_all q dists /\
     interpolate_loop q dists eles i n = py_last eles).
Proof.
  intros Hlen. induction n as [| n IH]; intros i Hi Hn Hpast.
  - right. split; [| reflexivity].
    intros j dj Hj Hdj. apply (Hpast j dj); [| exact Hdj].
    assert (j < length dists)%nat by (apply nth_error_Some; congruence). lia.
  - destruct (py_index_lt dists i) as [d1 [_ Hd1]]; [lia |].
    destruct (py_index_lt dists (i - 1)) as [d0 [_ Hd0]]; [lia |].
    destruct (py_index_lt eles i) as [e1 [_ He1]]; [lia |].
    destruct (py_index_lt eles (i - 1)) as [e0 [_ He0]]; [lia |].
    destruct (leb q d1) eqn:Hle.
    + left. exists i, d0, d1, e0, e1. split.
      * repeat split; auto. apply R_leb_le. exact Hle.
      * apply (interpolate_loop_hit R_sub_zero); assumption.
    + assert (Hstep : interpolate_loop q dists eles i (S n)
                      = interpolate_loop q dists eles (S i) n).
      { cbn [interpolate_loop]. rewrite (py_index_Some _ _ _ Hd1).
        cbn [bind]. rewrite Hle. reflexivity. }
      rewrite Hstep. apply IH; [lia | lia |].
      intros j dj Hj Hdj. destruct (Nat.eq_dec j i) as [-> | Hne].
      * assert (dj = d1) by congruence. subst dj. apply R_leb_gt. exact Hle.
      * apply (Hpast j dj); [lia | exact Hdj].
Qed.

(** What [interpolate_elevation] returns on a series with one elevation
    per distance. *)
Lemma interpolate_elevation_cases (q : R) (dists eles : list R) :
  length eles = length dists -> dists <> [] ->
  (exists k d0 d1 e0 e1,
      stops_at q dists eles k d0 d1 e0 e1 /\
      interpolate_elevation q dists eles
      = if eqb d1 d0 then Ok e1
        else Ok (e0 + (q - d0) / (d1 - d0) * (e1 - e0))) \/
  (passes_all q dists /\
   interpolate_elevation q dists eles = py_last eles).
Proof.
  intros Hlen Hne. unfold interpolate_elevation.
  apply interpolate_loop_cases; auto.
  - destruct dists; [contradiction | simpl; lia].
  - intros j dj Hj. lia.
Qed.

(** A linear blend of two elevations at a query between their distances
    lies between the two. *)
Lemma blend_between (q d0 d1 e0 e1 : R) :
  d0 <= q <= d1 -> d1 <> d0 ->
  Rmin e0 e1 <= e0 + (q - d0) / (d1 - d0) * (e1 - e0) <= Rmax e0 e1.
Proof.
  intros [H0 H1] Hne.
  assert (Hpos : 0 < d1 - d0) by lra.
  set (r := (q - d0) / (d1 - d0)).
  assert (Hr : r * (d1 - d0) = q - d0) by (unfold r; field; lra).
  assert (Hr01 : 0 <= r <= 1) by (split; nra).
  unfold Rmin, Rmax. destruct (Rle_dec e0 e1); split; nra.
Qed.

(** A blend along a rising pair of samples rises with the query. *)
Lemma blend_monotone (q1 q2 d0 d1 e0 e1 : R) :
  q1 <= q2 -> d0 < d1 -> e0 <= e1 ->
  e0 + (q1 - d0) / (d1 - d0) * (e1 - e0)
  <= e0 + (q2 - d0) / (d1 - d0) * (e1 - e0).
Proof.
  intros Hq Hd He.
  assert (Hr : (q1 - d0) / (d1 - d0) <= (q2 - d0) / (d1 - d0)).
  { unfold Rdiv. apply Rmult_le_compat_r; [| lra].
    left. apply Rinv_0_lt_compat. lra. }
  nra.
Qed.

(** Where the scan stops, the query is at or above the sample before,
    provided it is at or above the first distance. *)
Lemma stops_at_bracket (q : R) (dists eles : list R) (k : nat)
  (d0 d1 e0 e1 x0 : R) :
  stops_at q dists eles k d0 d1 e0 e1 ->
  nth_error dists 0 = Some x0 -> x0 <= q ->
  d0 <= q <= d1.
Proof.
  intros [Hk [Hpast [Hd0 [Hd1 [He0 [He1 Hq]]]]]] Hx0 Hx. split; [| exact Hq].
  destruct (Nat.eq_dec k 1) as [-> | Hne].
  - change (1 - 1)%nat with 0%nat in Hd0.
    assert (d0 = x0) by congruence. lra.
  - left. apply (Hpast (k - 1)%nat d0); [lia | exact Hd0].
Qed.

(** The value returned where the scan stops lies between the two
    elevations of the interval. *)
Lemma stops_at_value (q d0 d1 e0 e1 v : R) :
  d0 <= q <= d1 ->
  (if eqb d1 d0 then Ok e1
   else Ok (e0 + (q - d0) / (d1 - d0) * (e1 - e0))) = Ok v ->
  Rmin e0 e1 <= v <= Rmax e0 e1.
Proof.
  intros Hq Hv. destruct (eqb d1 d0) eqn:E; R_compare;
    injection Hv as <-.
  - unfold Rmin, Rmax. destruct (Rle_dec e0 e1); lra.
  - apply blend_between; assumption.
Qed.

Lemma if_result_value (b : bool) (x y : R) :
  exists v, (if b then Ok x else Ok y) = Ok v.
Proof. destruct b; eauto. Qed.

(** On a series that does not decrease, a query between two samples is
    answered from these two: the scan stops at the second, and what is
    returned is the linear blend of their elevations. *)
Theorem interpolate_elevation_between (q : R) (dists eles : list R)
  (i : nat) (d0 d1 e0 e1 : R) :
  length eles = length dists -> nondecreasing dists ->
  nth_error dists i = Some d0 -> nth_error dists (S i) = Some d1 ->
  nth_error eles i = Some e0 -> nth_error eles (S i) = Some e1 ->
  d0 < q <= d1 ->
  interpolate_elevation q dists eles
  = Ok (e0 + (q - d0) / (d1 - d0) * (e1 - e0)).
Proof.
  intros Hlen Hs Hd0 Hd1 He0 He1 [Hlo Hhi].
  assert (Hd0' : nth_error dists (S i - 1) = Some d0)
    by (rewrite Nat.sub_succ, Nat.sub_0_r; exact Hd0).
  assert (He0' : nth_error eles (S i - 1) = Some e0)
    by (rewrite Nat.sub_succ, Nat.sub_0_r; exact He0).
  assert (Hskip : forall j, (1 <= j < S i)%nat ->
            exists dj, nth_error dists j = Some dj /\ leb q dj = false).
  { intros j Hj.
    assert (Hi : (i < length dists)%nat)
      by (apply nth_error_Some; congruence).
    destruct (nth_error dists j) as [dj |] eqn:Hdj;
      [| apply nth_error_None in Hdj; lia].
    exists dj. split; [reflexivity |]. apply R_leb_gt.
    pose proof (nondecreasing_le dists Hs i j dj d0 ltac:(lia) Hdj Hd0).
    lra. }
  rewrite (interpolate_elevation_first R_sub_zero q dists eles (S i)
             d0 d1 e0 e1 ltac:(lia) Hskip Hd0' Hd1 He0' He1
             ltac:(apply R_leb_le; lra)).
  assert (E : eqb d1 d0 = false) by (apply R_eqb_neq; lra).
  rewrite E. reflexivity.
Qed.

Lemma interpolate_elevation_between_witness :
  interpolate_elevation 150 [0; 100; 200] [10; 20; 40]
  = Ok (20 + (150 - 100) / (200 - 100) * (40 - 20)).
Proof.
  apply (interpolate_elevation_between 150 [0; 100; 200] [10; 20; 40] 1
           100 200 20 40); try reflexivity.
  - intros [| [| [| j]]] a b Ha Hb; cbn in Ha, Hb; try discriminate;
      injection Ha as <-; injection Hb as <-; lra.
  - lra.
Defined.

(** From the first distance on, the value lies in any range that holds
    the elevations. *)
Lemma interpolate_elevation_bounded (q lo hi x0 : R)
  (dists eles : list R) :
  length eles = length dists ->
  nth_error dists 0 = Some x0 -> x0 <= q ->
  (forall e, In e eles -> lo <= e <= hi) ->
  exists v, interpolate_elevation q dists eles = Ok v /\ lo <= v <= hi.
Proof.
  intros Hlen Hx0 Hx Hrange.
  assert (Hne : dists <> []) by (intros ->; discriminate).
  destruct (interpolate_elevation_cases q dists eles Hlen Hne)
    as [[k [d0 [d1 [e0 [e1 [Hstop Hv]]]]]] | [_ Hv]].
  - destruct (if_result_value (eqb d1 d0) e1
                (e0 + (q - d0) / (d1 - d0) * (e1 - e0))) as [v Hv'].
    exists v. split; [congruence |].
    pose proof (stops_at_value q d0 d1 e0 e1 v
                  (stops_at_bracket q dists eles k d0 d1 e0 e1 x0 Hstop Hx0 Hx)
                  Hv') as Hb.
    destruct Hstop as [_ [_ [_ [_ [He0 [He1 _]]]]]].
    apply nth_error_In in He0, He1.
    pose proof (Hrange e0 He0). pose proof (Hrange e1 He1).
    unfold Rmin, Rmax in Hb. destruct (Rle_dec e0 e1); lra.
  - assert (Hene : eles <> []).
    { intros ->. destruct dists; [contradiction | discriminate]. }
    destruct (py_last_nonempty eles Hene) as [v Hlast].
    exists v. split; [congruence |].
    apply Hrange. apply py_last_nth in Hlast.
    apply nth_error_In in Hlast. exact Hlast.
Qed.

(** In exact arithmetic, from the first distance on the elevation
    returned never leaves the range of the elevations of the track. *)
Theorem interpolate_elevation_in_range (q lo hi x0 : R)
  (dists eles : list R) :
  length eles = length dists ->
  nth_error dists 0 = Some x0 -> x0 <= q ->
  (forall e, In e eles -> lo <= e <= hi) ->
  exists v, interpolate_elevation q dists eles = Ok v /\ lo <= v <= hi.
Proof. exact (interpolate_elevation_bounded q lo hi x0 dists eles). Qed.

Lemma interpolate_elevation_in_range_witness :
  exists v, interpolate_elevation 150 [0; 100; 200] [10; 20; 40] = Ok v /\
            10 <= v <= 40.
Proof.
  apply (interpolate_elevation_in_range 150 10 40 0 [0; 100; 200]
           [10; 20; 40]).
  - reflexivity.
  - reflexivity.
  - lra.
  - intros e [<- | [<- | [<- | []]]]; lra.
Defined.

(** Outside the track: beyond every distance the last elevation is
    returned, whatever the query; before the first distance the query is
    not refused but answered from the first interval, extended
    backwards. *)
Theorem interpolate_elevation_outside :
  (forall (q : R) (dists eles : list R),
     (forall d, In d dists -> d < q) ->
     interpolate_elevation q dists eles = py_last eles) /\
  (forall (q x0 x1 y0 y1 : R) (dists eles : list R),
     q < x0 -> x0 < x1 ->
     interpolate_elevation q (x0 :: x1 :: dists) (y0 :: y1 :: eles)
     = Ok (y0 + (q - x0) / (x1 - x0) * (y1 - y0))).
Proof.
  split.
  - intros q dists eles Hall. unfold interpolate_elevation.
    rewrite <- (Nat.add_0_r (length dists - 1)).
    rewrite (interpolate_loop_skip q dists eles (length dists - 1) 1 0).
    + reflexivity.
    + intros j Hj.
      destruct (nth_error dists j) as [dj |] eqn:Hdj;
        [| apply nth_error_None in Hdj; lia].
      exists dj. split; [reflexivity |]. apply R_leb_gt.
      apply Hall. apply nth_error_In in Hdj. exact Hdj.
  - intros q x0 x1 y0 y1 dists eles Hq Hx.
    rewrite (interpolate_elevation_first R_sub_zero q (x0 :: x1 :: dists)
               (y0 :: y1 :: eles) 1 x0 x1 y0 y1 (le_n 1)
               ltac:(intros j Hj; lia) eq_refl eq_refl eq_refl eq_refl
               ltac:(apply R_leb_le; lra)).
    assert (E : eqb x1 x0 = false) by (apply R_eqb_neq; lra).
    rewrite E. reflexivity.
Qed.

Lemma interpolate_elevation_outside_witness :
  interpolate_elevation 300 [0; 100; 200] [10; 20; 40]
  = py_last [10; 20; 40].
Proof.
  apply (proj1 interpolate_elevation_outside 300 [0; 100; 200] [10; 20; 40]).
  intros d [<- | [<- | [<- | []]]]; lra.
Defined.

(** Where the scan stops for a smaller query, it has not yet stopped for
    a larger one. *)
Lemma stops_at_order (q1 q2 : R) (dists eles : list R) (k1 k2 : nat)
  (a0 a1 b0 b1 c0 c1 f0 f1 : R) :
  q1 <= q2 ->
  stops_at q1 dists eles k1 a0 a1 b0 b1 ->
  stops_at q2 dists eles k2 c0 c1 f0 f1 ->
  (k1 <= k2)%nat.
Proof.
  intros Hq [Hk1 [Hp1 [_ [Ha1 [_ [_ Hq1]]]]]] [Hk2 [Hp2 [_ [Hc1 [_ [_ Hq2]]]]]].
  destruct (Nat.le_gt_cases k1 k2) as [H | H]; [exact H |].
  pose proof (Hp1 k2 c1 ltac:(lia) Hc1). lra.
Qed.

(** On elevations that do not decrease, a larger query gets an elevation
    that is not smaller. *)
Lemma interpolate_elevation_nondecreasing (q1 q2 x0 : R)
  (dists eles : list R) :
  length eles = length dists ->
  nth_error dists 0 = Some x0 -> x0 <= q1 -> q1 <= q2 ->
  nondecreasing eles ->
  exists v1 v2,
    interpolate_elevation q1 dists eles = Ok v1 /\
    interpolate_elevation q2 dists eles = Ok v2 /\
    v1 <= v2.
Proof.
  intros Hlen Hx0 Hx Hq He.
  assert (Hne : dists <> []) by (intros ->; discriminate).
  assert (Hene : eles <> []).
  { intros ->. destruct dists; [contradiction | discriminate]. }
  destruct (py_last_nonempty eles Hene) as [elast Hlast].
  pose proof (py_last_nth eles elast Hlast) as Hlastn.
  assert (Hup : forall j e, nth_error eles j = Some e -> e <= elast).
  { intros j e Hj.
    assert (j < length eles)%nat by (apply nth_error_Some; congruence).
    apply (nondecreasing_le eles He (length eles - 1) j); auto. lia. }
  destruct (interpolate_elevation_cases q1 dists eles Hlen Hne)
    as [[k1 [a0 [a1 [b0 [b1 [Hs1 Hv1]]]]]] | [Hall1 Hv1]];
  destruct (interpolate_elevation_cases q2 dists eles Hlen Hne)
    as [[k2 [c0 [c1 [f0 [f1 [Hs2 Hv2]]]]]] | [Hall2 Hv2]].
  - (* both queries stop *)
    destruct (if_result_value (eqb a1 a0) b1
                (b0 + (q1 - a0) / (a1 - a0) * (b1 - b0))) as [v1 Hv1'].
    destruct (if_result_value (eqb c1 c0) f1
                (f0 + (q2 - c0) / (c1 - c0) * (f1 - f0))) as [v2 Hv2'].
    exists v1, v2. split; [congruence |]. split; [congruence |].
    pose proof (stops_at_bracket _ _ _ _ _ _ _ _ _ Hs1 Hx0 Hx) as Hb1.
    pose proof (stops_at_bracket _ _ _ _ _ _ _ _ _ Hs2 Hx0 ltac:(lra)) as Hb2.
    pose proof (stops_at_order _ _ _ _ _ _ _ _ _ _ _ _ _ _ Hq Hs1 Hs2) as Hk.
    pose proof (stops_at_value _ _ _ _ _ _ Hb1 Hv1') as Hr1.
    pose proof (stops_at_value _ _ _ _ _ _ Hb2 Hv2') as Hr2.
    destruct Hs1 as [Hk1 [_ [Ha0 [Ha1 [Hb0 [Hb1' _]]]]]].
    destruct Hs2 as [Hk2 [_ [Hc0 [Hc1 [Hf0 [Hf1 _]]]]]].
    assert (Hb01 : b0 <= b1)
      by (apply (nondecreasing_le eles He k1 (k1 - 1)); auto; lia).
    assert (Hf01 : f0 <= f1)
      by (apply (nondecreasing_le eles He k2 (k2 - 1)); auto; lia).
    rewrite Rmin_left, Rmax_right in Hr1, Hr2 by assumption.
    destruct (Nat.eq_dec k1 k2) as [<- | Hne12].
    + (* the same interval *)
      assert (c0 = a0) by congruence. assert (c1 = a1) by congruence.
      assert (f0 = b0) by congruence. assert (f1 = b1) by congruence.
      subst c0 c1 f0 f1.
      destruct (eqb a1 a0) eqn:E; R_compare;
        injection Hv1' as <-; injection Hv2' as <-; [lra |].
      apply blend_monotone; lra.
    + (* a later interval *)
      assert (b1 <= f0)
        by (apply (nondecreasing_le eles He (k2 - 1) k1); auto; lia).
      lra.
  - (* the larger query passes every index *)
    destruct (if_result_value (eqb a1 a0) b1
                (b0 + (q1 - a0) / (a1 - a0) * (b1 - b0))) as [v1 Hv1'].
    exists v1, elast. split; [congruence |]. split; [congruence |].
    pose proof (stops_at_bracket _ _ _ _ _ _ _ _ _ Hs1 Hx0 Hx) as Hb1.
    pose proof (stops_at_value _ _ _ _ _ _ Hb1 Hv1') as Hr1.
    destruct Hs1 as [Hk1 [_ [Ha0 [Ha1 [Hb0 [Hb1' _]]]]]].
    pose proof (Hup _ _ Hb0). pose proof (Hup _ _ Hb1').
    unfold Rmax in Hr1. destruct (Rle_dec b0 b1); lra.
  - (* the smaller query cannot pass an index the larger one stops at *)
    destruct Hs2 as [Hk2 [_ [_ [Hc1 [_ [_ Hq2]]]]]].
    pose proof (Hall1 k2 c1 Hk2 Hc1). lra.
  - exists elast, elast. split; [congruence |]. split; [congruence | lra].
Qed.

(** In exact arithmetic, along a track that never descends the elevation
    returned never descends with the query. *)
Theorem interpolate_elevation_monotone (q1 q2 x0 : R) (dists eles : list R) :
  length eles = length dists ->
  nth_error dists 0 = Some x0 -> x0 <= q1 -> q1 <= q2 ->
  nondecreasing eles ->
  exists v1 v2,
    interpolate_elevation q1 dists eles = Ok v1 /\
    interpolate_elevation q2 dists eles = Ok v2 /\
    v1 <= v2.
Proof. exact (interpolate_elevation_nondecreasing q1 q2 x0 dists eles). Qed.

Lemma interpolate_elevation_monotone_witness :
  exists v1 v2,
    interpolate_elevation 50 [0; 100; 200] [10; 20; 40] = Ok v1 /\
    interpolate_elevation 150 [0; 100; 200] [10; 20; 40] = Ok v2 /\
    v1 <= v2.
Proof.
  apply (interpolate_elevation_monotone 50 150 0 [0; 100; 200] [10; 20; 40]).
  - reflexivity.
  - reflexivity.
  - lra.
  - lra.
  - intros [| [| [| j]]] a b Ha Hb; cbn in Ha, Hb; try discriminate;
      injection Ha as <-; injection Hb as <-; lra.
Defined.

(** At the distance of a track point the interpolator returns the
    elevation of a track point at that distance. *)
Lemma interpolate_elevation_on_track (dists eles : list R) (i : nat) (d : R) :
  length eles = length dists -> nondecreasing dists ->
  nth_error dists i = Some d ->
  exists k e,
    nth_error dists k = Some d /\ nth_error eles k = Some e /\
    interpolate_elevation d dists eles = Ok e.
Proof.
  intros Hlen Hs Hd.
  assert (Hne : dists <> []) by (intros ->; destruct i; discriminate).
  destruct (interpolate_elevation_cases d dists eles Hlen Hne)
    as [[k [d0 [d1 [e0 [e1 [Hstop Hv]]]]]] | [Hall Hv]].
  - destruct Hstop as [Hk [Hpast [Hd0 [Hd1 [He0 [He1 Hq]]]]]].
    destruct i as [| i].
    + (* the first point: the scan stops at index 1 *)
      assert (k = 1%nat).
      { destruct (Nat.eq_dec k 1) as [E | E]; [exact E |].
        destruct (nth_error dists 1) as [x1 |] eqn:Hx1.
        - pose proof (Hpast 1%nat x1 ltac:(lia) Hx1).
          pose proof (nondecreasing_le dists Hs 1 0 d x1 ltac:(lia) Hd Hx1).
          lra.
        - apply nth_error_None in Hx1.
          assert (k < length dists)%nat by (apply nth_error_Some; congruence).
          lia. }
      subst k. change (1 - 1)%nat with 0%nat in Hd0, He0.
      assert (d0 = d) by congruence. subst d0.
      destruct (eqb d1 d) eqn:E; R_compare.
      * exists 1%nat, e1. subst d1. auto.
      * exists 0%nat, e0. split; [exact Hd |]. split; [exact He0 |].
        rewrite Hv. f_equal. field. lra.
    + (* a later point: the scan stops at a point at the same distance *)
      assert (Hki : (k <= S i)%nat).
      { destruct (Nat.le_gt_cases k (S i)) as [H | H]; [exact H |].
        pose proof (Hpast (S i) d ltac:(lia) Hd). lra. }
      pose proof (nondecreasing_le dists Hs (S i) k d1 d Hki Hd1 Hd).
      assert (d1 = d) by lra. subst d1.
      exists k, e1. split; [exact Hd1 |]. split; [exact He1 |].
      rewrite Hv. destruct (eqb d d0) eqn:E; R_compare; [reflexivity |].
      f_equal. field. lra.
  - destruct i as [| i].
    + (* the first point of a series of one *)
      assert (Hone : length dists = 1%nat).
      { destruct dists as [| x0 [| x1 dists]]; [contradiction | reflexivity |].
        pose proof (Hall 1%nat x1 (le_n 1) eq_refl).
        pose proof (nondecreasing_le (x0 :: x1 :: dists) Hs 1 0 d x1
                      ltac:(lia) Hd eq_refl). lra. }
      destruct eles as [| y0 [| y1 eles]]; try (rewrite Hone in Hlen;
        discriminate).
      exists 0%nat, y0. split; [exact Hd |]. split; [reflexivity |].
      rewrite Hv. reflexivity.
    + pose proof (Hall (S i) d ltac:(lia) Hd). lra.
Qed.

(** In exact arithmetic, at the distance of any of its points the track's
    profile is met: the elevation returned is that of a track point at
    this distance. *)
Theorem interpolate_elevation_at_track_point (dists eles : list R) (i : nat)
  (d : R) :
  length eles = length dists -> nondecreasing dists ->
  nth_error dists i = Some d ->
  exists k e,
    nth_error dists k = Some d /\ nth_error eles k = Some e /\
    interpolate_elevation d dists eles = Ok e.
Proof. exact (interpolate_elevation_on_track dists eles i d). Qed.

Lemma interpolate_elevation_at_track_point_witness :
  exists k e,
    nth_error [0; 100; 100; 200] k = Some 100 /\
    nth_error [10; 20; 30; 40] k = Some e /\
    interpolate_elevation 100 [0; 100; 100; 200] [10; 20; 30; 40] = Ok e.
Proof.
  apply (interpolate_elevation_at_track_point [0; 100; 100; 200]
           [10; 20; 30; 40] 2 100).
  - reflexivity.
  - intros [| [| [| [| j]]]] a b Ha Hb; cbn in Ha, Hb; try discriminate;
      injection Ha as <-; injection Hb as <-; lra.
  - reflexivity.
Defined.

End InterpolatorShape.

(** ** Slopes and colours of whole profiles *)

Section SegmentColours.

Local Open Scope R_scope.

Lemma boundary_nonneg (j : nat) : 0 <= boundary j.
Proof.
  unfold boundary. rewrite Z.add_0_l, mult_IZR, <- INR_IZR_INZ.
  pose proof (pos_INR j). lra.
Qed.

(** On a level profile every segment is flat: whatever the distances,
    when every elevation is [h] the default segmentation is the
    [floor(total / 100) + 1] segments of length 100 from 0 on, each with
    slope 0, and every one of them is coloured darkgreen. *)
Theorem level_profile_all_darkgreen (dists eles : list R) (total h : R) :
  length eles = length dists -> nth_error dists 0 = Some 0 ->
  py_last dists = Ok total -> 0 <= total ->
  (forall e, In e eles -> e = h) ->
  let k := Z.to_nat (Int_part (total / 100)) in
  exists segments,
    segment_slopes dists eles default_segment = Ok segments /\
    length segments = S k /\
    (forall j, (j < S k)%nat ->
       nth_error segments j = Some (boundary j, boundary (S j), 0)) /\
    (forall s, In s segments -> slope_to_color (seg_slope s) = darkgreen).
Proof.
  intros Hlen Hhd Ht Hpos Hlevel k.
  assert (Hne : dists <> []) by (intros ->; discriminate).
  destruct (segment_slopes_default_boundaries dists eles total Ht Hpos)
    as [_ ->]. fold k.
  destruct (segment_loop_segments R_sub_zero dists eles
              (map boundary (seq 0 (S (S k)))) boundary Hlen Hne (S k) 0)
    as [segments [Hsegs [Hn Hall]]].
  { intros j Hj. apply nth_error_map_seq. lia. }
  { intros j Hj. apply R_eqb_neq. cbn [sub of_int R_num].
    rewrite boundary_step. lra. }
  assert (Hrange : forall e, In e eles -> h <= e <= h)
    by (intros e He; rewrite (Hlevel e He); lra).
  assert (Hflat : forall j, (j < S k)%nat ->
            nth_error segments j = Some (boundary j, boundary (S j), 0)).
  { intros j Hj. destruct (Hall j Hj) as [se [ee [H1 [H2 H3]]]].
    cbn [Nat.add] in H1, H2, H3.
    destruct (interpolate_elevation_bounded (boundary j) h h 0 dists eles
                Hlen Hhd (boundary_nonneg j) Hrange) as [v1 [Hv1 Hb1]].
    destruct (interpolate_elevation_bounded (boundary (S j)) h h 0 dists eles
                Hlen Hhd (boundary_nonneg (S j)) Hrange) as [v2 [Hv2 Hb2]].
    assert (v1 = se) by congruence. assert (v2 = ee) by congruence. subst.
    rewrite H3. do 2 f_equal. cbn [quot sub R_num]. rewrite boundary_step.
    lra. }
  exists segments. split; [exact Hsegs |]. split; [exact Hn |].
  split; [exact Hflat |].
  intros s Hs. apply In_nth_error in Hs as [j Hj].
  assert (Hlt : (j < S k)%nat)
    by (rewrite <- Hn; apply nth_error_Some; congruence).
  rewrite (Hflat j Hlt) in Hj. injection Hj as <-. cbn [seg_slope snd].
  destruct (slope_to_color_cases 0)
    as [[Hp _] | [[_ ->] | [[Hp _] | [[Hp _] | [[Hp _] | [Hp _]]]]]];
    try reflexivity; lra.
Qed.

Lemma level_profile_all_darkgreen_witness :
  exists segments,
    segment_slopes [0; 111; 222] [10; 10; 10] default_segment = Ok segments /\
    length segments = S (Z.to_nat (Int_part (222 / 100))) /\
    (forall j, (j < S (Z.to_nat (Int_part (222 / 100))))%nat ->
       nth_error segments j = Some (boundary j, boundary (S j), 0)) /\
    (forall s, In s segments -> slope_to_color (seg_slope s) = darkgreen).
Proof.
  apply (level_profile_all_darkgreen [0; 111; 222] [10; 10; 10] 222 10).
  - reflexivity.
  - reflexivity.
  - reflexivity.
  - lra.
  - intros e [<- | [<- | [<- | []]]]; reflexivity.
Defined.

End SegmentColours.

(** ** Segment lengths other than the default *)

Section SegmentLengths.

Local Open Scope R_scope.







End SegmentLengths.

Section SegmentTiling.

Local Open Scope R_scope.





End SegmentTiling.

(** ** The order of the colours *)

Section ClassifierOrder.

Local Open Scope R_scope.

(** A steeper slope never gets an easier colour: the colour moves along
    the cascade with the slope. *)
Theorem slope_to_color_monotone (slope1 slope2 : R) :
  slope1 <= slope2 ->
  (color_rank (slope_to_color slope1) <= color_rank (slope_to_color slope2))%nat.
Proof.
  intros Hle.
  destruct (slope_to_color_cases slope1)
    as [[H1 ->] | [[H1 ->] | [[H1 ->] | [[H1 ->] | [[H1 ->] | [H1 ->]]]]]];
  destruct (slope_to_color_cases slope2)
    as [[H2 ->] | [[H2 ->] | [[H2 ->] | [[H2 ->] | [[H2 ->] | [H2 ->]]]]]];
  cbn [color_rank]; try lia; lra.
Qed.

Lemma slope_to_color_monotone_witness :
  (color_rank (slope_to_color (2 / 100)%R)
   <= color_rank (slope_to_color (12 / 100)%R))%nat.
Proof.
  apply (slope_to_color_monotone (2 / 100) (12 / 100)). lra.
Defined.

End ClassifierOrder.

(** ** The figure *)

Section Drawing.

Local Open Scope R_scope.

(** The distances strictly inside a segment, as the inner loop of
    [plot_profile] collects them. *)
Lemma map_fst_filter_combine (p : R -> bool) (dists eles : list R) :
  length eles = length dists ->
  map fst (filter (fun de : R * R => p (fst de)) (combine dists eles))
  = filter p dists.
Proof.
  revert eles. induction dists as [| d dists IH]; intros [| e eles] Hlen;
    try discriminate; [reflexivity |].
  cbn [combine filter fst]. destruct (p d); cbn [map fst];
    rewrite IH by (simpl in Hlen; lia); reflexivity.
Qed.

(** A list of distances between two ends, each not below the one before:
    with the ends put around it, it still does not go back. *)
Lemma nondecreasing_cons (a : R) (l : list R) :
  (forall b, nth_error l 0 = Some b -> a <= b) -> nondecreasing l ->
  nondecreasing (a :: l).
Proof.
  intros Hhd Hl [| i] x y Hx Hy.
  - cbn in Hx. injection Hx as <-. apply Hhd. exact Hy.
  - apply (Hl i x y Hx Hy).
Qed.

Lemma nondecreasing_tail (a : R) (l : list R) :
  nondecreasing (a :: l) -> nondecreasing l.
Proof. intros H i x y Hx Hy. apply (H (S i) x y Hx Hy). Qed.

Lemma nondecreasing_filter (p : R -> bool) (l : list R) :
  nondecreasing l -> nondecreasing (filter p l).
Proof.
  induction l as [| a l IH]; intros Hs; [intros [| i] x y Hx; discriminate |].
  pose proof (IH (nondecreasing_tail a l Hs)) as Hl.
  cbn [filter]. destruct (p a); [| exact Hl].
  apply nondecreasing_cons; [| exact Hl].
  intros b Hb. apply nth_error_In in Hb. apply filter_In in Hb as [Hb _].
  apply In_nth_error in Hb as [j Hj].
  apply (nondecreasing_le (a :: l) Hs (S j) 0 a b); [lia | reflexivity | exact Hj].
Qed.

Lemma nondecreasing_between (lo hi : R) (l : list R) :
  lo <= hi -> nondecreasing l -> (forall x, In x l -> lo < x < hi) ->
  nondecreasing ([lo] ++ l ++ [hi]).
Proof.
  intros Hle Hs Hin. cbn [app]. apply nondecreasing_cons.
  - intros b Hb. destruct l as [| x l]; cbn in Hb; injection Hb as <-;
      [exact Hle |]. pose proof (Hin x (or_introl eq_refl)). lra.
  - clear Hle. induction l as [| x l IH].
    + intros [| [| i]] a b Ha Hb; discriminate.
    + cbn [app]. apply nondecreasing_cons.
      * intros b Hb. pose proof (Hin x (or_introl eq_refl)).
        destruct l as [| y l]; cbn in Hb; injection Hb as <-; [lra |].
        apply (Hs 0%nat x y eq_refl eq_refl).
      * apply IH; [apply (nondecreasing_tail x l Hs) |].
        intros y Hy. apply Hin. right. exact Hy.
Qed.

(** The loop of [plot_profile] over the segments, on a series that does
    not decrease with one elevation per distance: for segments that do not
    run backwards it raises nothing and makes one [fill_between] call per
    segment, in their order, each with as many ys and zeros as xs, with
    xs that start at the segment's start, end at its end and never go
    back, in the colour of the segment's slope. *)
Theorem fill_loop_fills (dists eles : list R) :
  length eles = length dists -> dists <> [] -> nondecreasing dists ->
  forall segments,
    (forall s, In s segments -> seg_start s <= seg_end s) ->
    exists fills,
      fill_loop dists eles segments = (fills, Ok tt) /\
      Forall2 fills_segment segments fills.
Proof.
  intros Hlen Hne Hs.
  induction segments as [| [[start_d end_d] slope] rest IH]; intros Hle.
  - exists []. split; [reflexivity | constructor].
  - destruct IH as [fills [Hfill Hall]].
    { intros s Hin. apply Hle. right. exact Hin. }
    cbn [fill_loop].
    destruct (interpolate_elevation_returns R_sub_zero start_d dists eles
                Hlen Hne) as [se ->].
    destruct (interpolate_elevation_returns R_sub_zero end_d dists eles
                Hlen Hne) as [ee ->].
    rewrite Hfill. cbn [lift io_bind emit app].
    eexists. split; [reflexivity |]. constructor; [| exact Hall].
    eexists. eexists. split; [reflexivity |].
    set (inside := fun d : R => ltb start_d d && ltb d end_d).
    change (fun de : R * R => ltb start_d (fst de) && ltb (fst de) end_d)
      with (fun de : R * R => inside (fst de)).
    rewrite (map_fst_filter_combine inside dists eles Hlen).
    split; [| split; [| split]].
    + cbn [length]. rewrite !length_app, length_map. cbn [length].
      rewrite <- (map_fst_filter_combine inside dists eles Hlen), length_map.
      reflexivity.
    + reflexivity.
    + change (start_d :: filter inside dists ++ [end_d])
        with ((start_d :: filter inside dists) ++ [end_d]).
      apply py_last_snoc.
    + apply (nondecreasing_between start_d end_d (filter inside dists)).
      * apply (Hle (start_d, end_d, slope)). left. reflexivity.
      * apply nondecreasing_filter. exact Hs.
      * intros x Hx. apply filter_In in Hx as [_ Hx]. unfold inside in Hx.
        apply andb_true_iff in Hx as [H1 H2].
        apply R_ltb_lt in H1, H2. lra.
Qed.

Lemma fill_loop_fills_witness :
  exists fills,
    fill_loop [0; 111; 222] [10; 20; 15] [(0, 100, 1 / 10); (100, 200, 0)]
    = (fills, Ok tt) /\
    Forall2 fills_segment [(0, 100, 1 / 10); (100, 200, 0)] fills.
Proof.
  apply (fill_loop_fills [0; 111; 222] [10; 20; 15]).
  - reflexivity.
  - discriminate.
  - intros [| [| [| j]]] a b Ha Hb; cbn in Ha, Hb; try discriminate;
      injection Ha as <-; injection Hb as <-; lra.
  - intros s [<- | [<- | []]]; cbn [seg_start seg_end fst snd]; lra.
Defined.

End Drawing.
